(** * Posts API and post-content codec: a shallow embedding

    The development follows the three TypeScript sources of the
    repository:

    - [app/api/posts/route.ts]       (module [Posts]): [isUuid],
      [validateCreatePostPayload], the list and create handlers;
    - [app/api/posts/[id]/route.ts]  (module [PostById]): [isUuid],
      [validateUpdatePayload], the read-one, update and delete handlers;
    - [app/page.tsx]                 (module [Page]): [parsePostContent]
      and [serializeContent].

    JavaScript values are modelled as the program sees them: a string is
    a sequence of UTF-16 code units, an object is a finite map from
    property names to values, [JSON.parse] is a recursive-descent parser
    over code units, and exceptions are an error monad. *)

From Stdlib Require Import String Ascii NArith ZArith Lia.
From stdpp Require Import gmap list.

Set Warnings "-register-all".
Set Default Proof Using "Type".

(* ===================================================================== *)
(** * JavaScript strings *)
(* ===================================================================== *)

Module JS.

(** A JavaScript string is a sequence of 16-bit code units. *)
Abbreviation jsstring := (list N).

(** String literals of the source: every character of the sources'
    literals is ASCII, so a literal is its sequence of character codes. *)
Definition js (s : string) : jsstring :=
  map N_of_ascii (list_ascii_of_string s).
Arguments js s%_string.

Definition in_range (lo hi c : N) : bool := (lo <=? c)%N && (c <=? hi)%N.

(** ECMAScript [WhiteSpace] and [LineTerminator] code units, the set that
    [String.prototype.trim] removes. *)
Definition is_white_space (c : N) : bool :=
  in_range 9 13 c          (* TAB, LF, VT, FF, CR *)
  || (c =? 32)%N           (* SP *)
  || (c =? 160)%N          (* NBSP *)
  || (c =? 5760)%N         (* U+1680 *)
  || in_range 8192 8202 c  (* U+2000 .. U+200A *)
  || (c =? 8232)%N         (* U+2028 LS *)
  || (c =? 8233)%N         (* U+2029 PS *)
  || (c =? 8239)%N         (* U+202F *)
  || (c =? 8287)%N         (* U+205F *)
  || (c =? 12288)%N        (* U+3000 *)
  || (c =? 65279)%N.       (* U+FEFF *)

Fixpoint trim_start (s : jsstring) : jsstring :=
  match s with
  | [] => []
  | c :: r => if is_white_space c then trim_start r else s
  end.

Definition trim_end (s : jsstring) : jsstring :=
  reverse (trim_start (reverse s)).

(** [s.trim()] *)
Definition trim (s : jsstring) : jsstring := trim_end (trim_start s).

(* ===================================================================== *)
(** * Regular expressions of the shape used by [isUuid]

    The only regular expression of the program is anchored at both ends
    ([^ ... $], no [m] flag) and is a sequence of character classes, each
    repeated an exact number of times; it carries the [i] flag and no [u]
    flag.  For that fragment matching is deterministic. *)
(* ===================================================================== *)

(** A class is a union of inclusive code-unit ranges; a single character
    [c] is the range [(c, c)]. *)
Definition char_class := list (N * N).

(** A class with its [{n}] quantifier. *)
Record piece := Piece { piece_class : char_class; piece_count : nat }.

(** [Canonicalize] of the specification of [RegExp] for [ignoreCase]
    without [unicode]: the code unit is upper-cased, except that a code
    unit of value 128 or more is never mapped below 128.  On the ASCII
    range upper-casing moves [a-z] to [A-Z] and fixes everything else.
    Above it the result stays at 128 or more, and as every class below is
    ASCII, only that fact matters: the identity stands for it. *)
Definition canonicalize (c : N) : N :=
  if in_range 97 122 c then (c - 32)%N else c.

(** The code units a class contains. *)
Definition class_members (cls : char_class) : list N :=
  flat_map (fun r => map N.of_nat
                       (seq (N.to_nat (fst r))
                            (N.to_nat (snd r + 1 - fst r)))) cls.

(** [CharacterSetMatcher] with the [i] flag: [c] is accepted when some
    member [a] of the class has [canonicalize a = canonicalize c]. *)
Definition in_class_i (cls : char_class) (c : N) : bool :=
  existsb (fun a => (canonicalize a =? canonicalize c)%N) (class_members cls).

Fixpoint match_rep (cls : char_class) (n : nat) (s : jsstring)
  : option jsstring :=
  match n with
  | O => Some s
  | S n' =>
      match s with
      | c :: r => if in_class_i cls c then match_rep cls n' r else None
      | [] => None
      end
  end.

Fixpoint match_seq (ps : list piece) (s : jsstring) : option jsstring :=
  match ps with
  | [] => Some s
  | p :: ps' =>
      match match_rep (piece_class p) (piece_count p) s with
      | Some r => match_seq ps' r
      | None => None
      end
  end.

(** [/^ ps $/i.test(s)] *)
Definition regexp_test (ps : list piece) (s : jsstring) : bool :=
  match match_seq ps s with
  | Some [] => true
  | _ => false
  end.

(* ===================================================================== *)
(** * JavaScript values that JSON can denote *)
(* ===================================================================== *)

(** A number read from JSON text is kept as the decimal it was written
    as: [(-1)^neg * mant * 10^exp10].  The program never computes with
    numbers; it only asks for their type and their truthiness. *)
Record number := Number { num_neg : bool; num_mant : N; num_exp10 : Z }.

(** The double nearest to the decimal is [+0] or [-0] exactly when its
    magnitude is at most [2^-1075], half of the least subnormal
    [2^-1074] (the tie goes to the even significand, which is zero). *)
Definition number_is_zero (n : number) : bool :=
  (num_mant n =? 0)%N
  || ((num_exp10 n <? 0)%Z
      && (Z.of_N (num_mant n) * 2 ^ 1075 <=? 10 ^ (- num_exp10 n))%Z).

Inductive json :=
  | JNull
  | JBool (b : bool)
  | JNum (n : number)
  | JStr (s : jsstring)
  | JArr (l : list json)
  | JObj (o : gmap jsstring json).

(** The result of [typeof]. *)
Inductive jstype := TObject | TBoolean | TNumber | TString | TUndefined.

(** A value read from a property is [None] when the read gives
    [undefined]. *)
Definition typeof (v : option json) : jstype :=
  match v with
  | None => TUndefined
  | Some JNull => TObject
  | Some (JBool _) => TBoolean
  | Some (JNum _) => TNumber
  | Some (JStr _) => TString
  | Some (JArr _) => TObject
  | Some (JObj _) => TObject
  end.

(** [Boolean(v)], also the test of [if (v)], [!v] and [v && ...]. *)
Definition truthy (v : option json) : bool :=
  match v with
  | None => false
  | Some JNull => false
  | Some (JBool b) => b
  | Some (JNum n) => negb (number_is_zero n)
  | Some (JStr s) => match s with [] => false | _ => true end
  | Some (JArr _) => true
  | Some (JObj _) => true
  end.

(** Exceptions: an evaluation completes normally or throws. *)
Inductive error := SyntaxError | TypeError.

Inductive completion (A : Type) :=
  | Normal (a : A)
  | Throw (e : error).
Arguments Normal {A} a.
Arguments Throw {A} e.

Definition bind {A B} (c : completion A) (k : A -> completion B)
  : completion B :=
  match c with
  | Normal a => k a
  | Throw e => Throw e
  end.

(** [v.k] on a value [v] other than [null], for the property names the
    program reads ([title], [content], [profile_id], [body],
    [published], [media], [id], [kind], [url]).  None of them is defined
    on [Object.prototype], [Array.prototype], [String.prototype],
    [Number.prototype] or [Boolean.prototype], and none is an array index
    or [length]: the read finds an own property of an object and gives
    [undefined] on an array or a primitive. *)
Definition prop (v : json) (k : jsstring) : option json :=
  match v with
  | JObj o => o !! k
  | _ => None
  end.

(** [v.k] in general: reading a property of [null] throws a
    [TypeError]. *)
Definition get (v : json) (k : jsstring) : completion (option json) :=
  match v with
  | JNull => Throw TypeError
  | _ => Normal (prop v k)
  end.

(** [typeof v === 'object'] *)
Definition is_object (v : option json) : bool :=
  match typeof v with TObject => true | _ => false end.

(** [typeof v === 'string'], with the string when it holds. *)
Definition as_string (v : option json) : option jsstring :=
  match v with
  | Some (JStr s) => Some s
  | _ => None
  end.

Definition is_string (v : option json) : bool :=
  match typeof v with TString => true | _ => false end.

(** [v === s] for a string literal [s]: strict equality holds for a
    string with the same code units and for nothing else. *)
Definition is_literal (v : option json) (s : jsstring) : bool :=
  match v with
  | Some (JStr t) => bool_decide (t = s)
  | _ => false
  end.

(** [v === undefined] and [v === null] *)
Definition is_undefined (v : option json) : bool :=
  match v with None => true | Some _ => false end.

Definition is_null (v : option json) : bool :=
  match v with Some JNull => true | _ => false end.

End JS.

(* ===================================================================== *)
(** * JSON text: [JSON.parse] and [JSON.stringify] *)
(* ===================================================================== *)

Module Json.
Import JS.

(** The code unit of an ASCII character. *)
Definition ch (a : ascii) : N := N_of_ascii a.
Arguments ch a%_char.

(** The quotation mark, U+0022, and a text between two of them, for the
    literals of the source that contain quotation marks. *)
Definition quote_mark : N := 34.

Definition in_quotes (s : jsstring) : jsstring :=
  quote_mark :: s ++ [quote_mark].

(** The result of reading a prefix of a text: a value and the text left,
    a syntax error, or not enough fuel to decide. *)
Inductive parsed (A : Type) :=
  | Ok (a : A) (rest : jsstring)
  | Bad
  | NoFuel.
Arguments Ok {A} a rest.
Arguments Bad {A}.
Arguments NoFuel {A}.

(** JSON white space: TAB, LF, CR and SP. *)
Definition is_json_ws (c : N) : bool :=
  (c =? 9)%N || (c =? 10)%N || (c =? 13)%N || (c =? 32)%N.

Fixpoint skip_ws (s : jsstring) : jsstring :=
  match s with
  | [] => []
  | c :: r => if is_json_ws c then skip_ws r else s
  end.

Definition is_digit (c : N) : bool := in_range 48 57 c.

Definition hex_value (c : N) : option N :=
  if in_range 48 57 c then Some (c - 48)%N
  else if in_range 97 102 c then Some (c - 87)%N
  else if in_range 65 70 c then Some (c - 55)%N
  else None.

(** The code unit of [\uXXXX], given the four code units after [\u]. *)
Definition hex4_value (a b c d : N) : option N :=
  match hex_value a, hex_value b, hex_value c, hex_value d with
  | Some x, Some y, Some z, Some w =>
      Some (((x * 16 + y) * 16 + z) * 16 + w)%N
  | _, _, _, _ => None
  end.

(** The code unit a single-character escape stands for. *)
Definition escape_value (e : N) : option N :=
  if (e =? quote_mark)%N then Some quote_mark
  else if (e =? ch "\")%N then Some (ch "\")
  else if (e =? ch "/")%N then Some (ch "/")
  else if (e =? ch "b")%N then Some 8%N
  else if (e =? ch "f")%N then Some 12%N
  else if (e =? ch "n")%N then Some 10%N
  else if (e =? ch "r")%N then Some 13%N
  else if (e =? ch "t")%N then Some 9%N
  else None.

(** The characters of a string up to its closing quotation mark; the
    opening one has been read. *)
Fixpoint parse_chars (s : jsstring) : parsed jsstring :=
  match s with
  | [] => Bad
  | c :: r =>
      if (c =? quote_mark)%N then Ok [] r
      else if (c =? ch "\")%N then
        match r with
        | [] => Bad
        | e :: r1 =>
            if (e =? ch "u")%N then
              match r1 with
              | h1 :: h2 :: h3 :: h4 :: r2 =>
                  match hex4_value h1 h2 h3 h4 with
                  | Some u =>
                      match parse_chars r2 with
                      | Ok t rest => Ok (u :: t) rest
                      | other => other
                      end
                  | None => Bad
                  end
              | _ => Bad
              end
            else
              match escape_value e with
              | Some u =>
                  match parse_chars r1 with
                  | Ok t rest => Ok (u :: t) rest
                  | other => other
                  end
              | None => Bad
              end
        end
      else if (c <? 32)%N then Bad
      else
        match parse_chars r with
        | Ok t rest => Ok (c :: t) rest
        | other => other
        end
  end.

(** The longest prefix of digits, as the number it writes on top of
    [acc], with how many digits it has and the text left. *)
Fixpoint span_digits (acc : N) (s : jsstring) : N * nat * jsstring :=
  match s with
  | c :: r =>
      if is_digit c then
        let '(v, n, rest) := span_digits (acc * 10 + (c - 48))%N r in
        (v, S n, rest)
      else (acc, O, s)
  | [] => (acc, O, s)
  end.

(** The optional fraction: the mantissa extended by its digits and how
    many there are. *)
Definition parse_frac (mant : N) (s : jsstring)
  : parsed (N * nat) :=
  match s with
  | c :: r =>
      if (c =? ch ".")%N then
        let '(v, n, rest) := span_digits mant r in
        match n with
        | O => Bad
        | S _ => Ok (v, n) rest
        end
      else Ok (mant, O) s
  | [] => Ok (mant, O) s
  end.

(** The optional exponent. *)
Definition parse_exp (s : jsstring) : parsed Z :=
  match s with
  | c :: r =>
      if (c =? ch "e")%N || (c =? ch "E")%N then
        let '(minus, r1) :=
          match r with
          | g :: r' =>
              if (g =? ch "-")%N then (true, r')
              else if (g =? ch "+")%N then (false, r')
              else (false, r)
          | [] => (false, r)
          end in
        let '(v, n, rest) := span_digits 0 r1 in
        match n with
        | O => Bad
        | S _ => Ok (if minus then (- Z.of_N v)%Z else Z.of_N v) rest
        end
      else Ok 0%Z s
  | [] => Ok 0%Z s
  end.

(** A number: an optional minus sign; the integer part, which is [0] or
    a digit from 1 to 9 followed by any digits; an optional fraction, a
    point and at least one digit; an optional exponent, [e] or [E], an
    optional sign and at least one digit. *)
Definition parse_number (s : jsstring) : parsed number :=
  let '(neg, s1) :=
    match s with
    | c :: r => if (c =? ch "-")%N then (true, r) else (false, s)
    | [] => (false, s)
    end in
  match s1 with
  | c :: r =>
      if is_digit c then
        let '(int, s2) :=
          if (c =? ch "0")%N then (0%N, r)
          else let '(v, _, rest) := span_digits 0 s1 in (v, rest) in
        match parse_frac int s2 with
        | Ok (mant, nfrac) s3 =>
            match parse_exp s3 with
            | Ok e rest => Ok (Number neg mant (e - Z.of_nat nfrac)) rest
            | Bad => Bad
            | NoFuel => NoFuel
            end
        | Bad => Bad
        | NoFuel => NoFuel
        end
      else Bad
  | [] => Bad
  end.

(** [s] starts with the word [w]: the text after it. *)
Fixpoint strip_prefix (w s : jsstring) : option jsstring :=
  match w with
  | [] => Some s
  | a :: w' =>
      match s with
      | c :: r => if (a =? c)%N then strip_prefix w' r else None
      | [] => None
      end
  end.

Definition parse_word (w : jsstring) (v : json) (s : jsstring)
  : parsed json :=
  match strip_prefix w s with
  | Some rest => Ok v rest
  | None => Bad
  end.

(** A value, the elements of an array after its first bracket and the
    members of an object after its first brace.  The members are added to
    the object in the order of the text, a later member of the same name
    replacing the earlier one. *)
Fixpoint parse_value (fuel : nat) (s : jsstring) : parsed json :=
  match fuel with
  | O => NoFuel
  | S fuel' =>
      match skip_ws s with
      | [] => Bad
      | c :: r =>
          if (c =? quote_mark)%N then
            match parse_chars r with
            | Ok t rest => Ok (JStr t) rest
            | Bad => Bad
            | NoFuel => NoFuel
            end
          else if (c =? ch "[")%N then
            match skip_ws r with
            | d :: r' =>
                if (d =? ch "]")%N then Ok (JArr []) r'
                else
                  match parse_elements fuel' (d :: r') with
                  | Ok l rest => Ok (JArr l) rest
                  | Bad => Bad
                  | NoFuel => NoFuel
                  end
            | [] => Bad
            end
          else if (c =? ch "{")%N then
            match skip_ws r with
            | d :: r' =>
                if (d =? ch "}")%N then Ok (JObj ∅) r'
                else
                  match parse_members fuel' ∅ (d :: r') with
                  | Ok o rest => Ok (JObj o) rest
                  | Bad => Bad
                  | NoFuel => NoFuel
                  end
            | [] => Bad
            end
          else if (c =? ch "t")%N then parse_word (js "true") (JBool true) (c :: r)
          else if (c =? ch "f")%N then parse_word (js "false") (JBool false) (c :: r)
          else if (c =? ch "n")%N then parse_word (js "null") JNull (c :: r)
          else
            match parse_number (c :: r) with
            | Ok n rest => Ok (JNum n) rest
            | Bad => Bad
            | NoFuel => NoFuel
            end
      end
  end
with parse_elements (fuel : nat) (s : jsstring) : parsed (list json) :=
  match fuel with
  | O => NoFuel
  | S fuel' =>
      match parse_value fuel' s with
      | Ok v rest =>
          match skip_ws rest with
          | c :: r =>
              if (c =? ch ",")%N then
                match parse_elements fuel' r with
                | Ok l rest' => Ok (v :: l) rest'
                | other => other
                end
              else if (c =? ch "]")%N then Ok [v] r
              else Bad
          | [] => Bad
          end
      | Bad => Bad
      | NoFuel => NoFuel
      end
  end
with parse_members (fuel : nat) (o : gmap jsstring json) (s : jsstring)
  : parsed (gmap jsstring json) :=
  match fuel with
  | O => NoFuel
  | S fuel' =>
      match skip_ws s with
      | q :: r0 =>
          if (q =? quote_mark)%N then
            match parse_chars r0 with
            | Ok k r1 =>
                match skip_ws r1 with
                | c :: r2 =>
                    if (c =? ch ":")%N then
                      match parse_value fuel' r2 with
                      | Ok v rest =>
                          match skip_ws rest with
                          | d :: r3 =>
                              if (d =? ch ",")%N then
                                parse_members fuel' (<[k := v]> o) r3
                              else if (d =? ch "}")%N then
                                Ok (<[k := v]> o) r3
                              else Bad
                          | [] => Bad
                          end
                      | Bad => Bad
                      | NoFuel => NoFuel
                      end
                    else Bad
                | [] => Bad
                end
            | Bad => Bad
            | NoFuel => NoFuel
            end
          else Bad
      | [] => Bad
      end
  end.

(** Every call of the three functions above uses one unit of fuel and,
    from one call of [parse_value] to the next nested one, at least one
    code unit of text: twice the length of the text is enough (lemma
    [parse_value_fuel] below). *)
Definition parse_fuel (s : jsstring) : nat := 2 * length s + 2.

(** [JSON.parse(s)]: one value, with white space around it and nothing
    else; a [SyntaxError] otherwise.  The last case does not occur
    (lemma [JSON_parse_fuel]). *)
Definition JSON_parse (s : jsstring) : completion json :=
  match parse_value (parse_fuel s) s with
  | Ok v rest =>
      match skip_ws rest with
      | [] => Normal v
      | _ :: _ => Throw SyntaxError
      end
  | Bad => Throw SyntaxError
  | NoFuel => Throw SyntaxError
  end.

(** A value as [JSON.stringify] walks it: the properties of an object
    come in the order in which the object literal creates them.  The
    program serializes strings, booleans, arrays and objects only. *)
Inductive jsvalue :=
  | VBool (b : bool)
  | VStr (s : jsstring)
  | VArr (l : list jsvalue)
  | VObj (fields : list (jsstring * jsvalue)).

Definition is_high_surrogate (c : N) : bool := in_range 55296 56319 c.
Definition is_low_surrogate (c : N) : bool := in_range 56320 57343 c.

(** A lower-case hexadecimal digit. *)
Definition hex_digit (n : N) : N :=
  if (n <? 10)%N then (48 + n)%N else (87 + n)%N.

(** [\uXXXX] for the code unit [c]. *)
Definition unicode_escape (c : N) : jsstring :=
  [ch "\"; ch "u";
   hex_digit (c / 4096 mod 16); hex_digit (c / 256 mod 16);
   hex_digit (c / 16 mod 16); hex_digit (c mod 16)]%N.

(** A code unit that is not a surrogate, as [QuoteJSONString] writes
    it. *)
Definition quote_unit (c : N) : jsstring :=
  if (c =? 8)%N then [ch "\"; ch "b"]
  else if (c =? 9)%N then [ch "\"; ch "t"]
  else if (c =? 10)%N then [ch "\"; ch "n"]
  else if (c =? 12)%N then [ch "\"; ch "f"]
  else if (c =? 13)%N then [ch "\"; ch "r"]
  else if (c =? quote_mark)%N then [ch "\"; quote_mark]
  else if (c =? ch "\")%N then [ch "\"; ch "\"]
  else if (c <? 32)%N then unicode_escape c
  else [c].

(** [QuoteJSONString] goes through the code points of the string: a high
    surrogate followed by a low one is a code point written as it is, a
    surrogate on its own is escaped. *)
Fixpoint quote_chars (s : jsstring) : jsstring :=
  match s with
  | [] => []
  | c :: r =>
      if is_high_surrogate c then
        match r with
        | d :: r' =>
            if is_low_surrogate d then c :: d :: quote_chars r'
            else unicode_escape c ++ quote_chars r
        | [] => unicode_escape c
        end
      else if is_low_surrogate c then unicode_escape c ++ quote_chars r
      else quote_unit c ++ quote_chars r
  end.

Definition quote (s : jsstring) : jsstring :=
  quote_mark :: quote_chars s ++ [quote_mark].

(** The texts [ts] with commas between them. *)
Fixpoint join_comma (ts : list jsstring) : jsstring :=
  match ts with
  | [] => []
  | [t] => t
  | t :: ts' => t ++ ch "," :: join_comma ts'
  end.

(** [JSON.stringify(v)], without indentation. *)
Fixpoint JSON_stringify (v : jsvalue) : jsstring :=
  match v with
  | VBool true => js "true"
  | VBool false => js "false"
  | VStr s => quote s
  | VArr l => ch "[" :: join_comma (map JSON_stringify l) ++ [ch "]"]
  | VObj fields =>
      ch "{"
      :: join_comma
           (map (fun kv => quote (fst kv) ++ ch ":" :: JSON_stringify (snd kv))
                fields)
      ++ [ch "}"]
  end.

End Json.

(* ===================================================================== *)
(** * The web framework and the backend, as the handlers use them *)
(* ===================================================================== *)

Module Next.
Import JS Json.

(** [NextResponse]: a status and a JSON body, [None] for the empty body
    of [new NextResponse(null, ...)]. *)
Record response := Response { status : N; payload : option json }.

(** [NextResponse.json(body, { status })] *)
Definition json_response (body : gmap jsstring json) (st : N) : response :=
  {| status := st; payload := Some (JObj body) |}.

(** The object literal [{ k: v }], where a property whose value is
    [undefined] does not reach the JSON body. *)
Definition field (k : jsstring) (v : option json) : gmap jsstring json :=
  match v with
  | Some x => {[ k := x ]}
  | None => ∅
  end.

(** The queries the handlers build on the [posts] table. *)
Inductive query :=
  | SelectPosts
      (* .select('*').order('created_at', { ascending: false }) *)
  | InsertPost (values : gmap jsstring json)
      (* .insert(values).select('*').single() *)
  | SelectPost (id : jsstring)
      (* .select('*').eq('id', id).maybeSingle() *)
  | UpdatePost (values : gmap jsstring json) (id : jsstring)
      (* .update(values).eq('id', id).select('*').maybeSingle() *)
  | DeletePost (id : jsstring).
      (* .delete().eq('id', id).select('id').maybeSingle() *)

Record PostgrestError := { message : jsstring }.

(** What awaiting a query gives: [{ data, error }], with [data] the rows
    or [null] and [error] an error object or [null]. *)
Record PostgrestResponse :=
  { data : json; error : option PostgrestError }.

(** A handler is a program that may read the JSON body of the request
    ([await request.json()], which throws on malformed JSON) and may
    await queries, and ends with a response. *)
Inductive handler :=
  | Respond (r : response)
  | RequestJson (k : completion json -> handler)
  | Await (q : query) (k : PostgrestResponse -> handler).

(** What a run of a handler does, in order. *)
Inductive event :=
  | ReadBody
  | Queried (q : query) (r : PostgrestResponse).

(** A request body and a backend to run a handler against. *)
Record world :=
  { request_json : completion json;
    backend : query -> PostgrestResponse }.

Fixpoint run (w : world) (h : handler) : response * list event :=
  match h with
  | Respond r => (r, [])
  | RequestJson k =>
      let '(r, t) := run w (k (request_json w)) in (r, ReadBody :: t)
  | Await q k =>
      let a := backend w q in
      let '(r, t) := run w (k a) in (r, Queried q a :: t)
  end.

(** The queries of a trace. *)
Definition queries (t : list event) : list query :=
  omap (fun e => match e with Queried q _ => Some q | ReadBody => None end) t.

End Next.

(* ===================================================================== *)
(** * [app/api/posts/route.ts] *)
(* ===================================================================== *)

Module Posts.
Import JS Json Next.

Record CreatePostPayload :=
  { title : jsstring; content : option jsstring; profile_id : jsstring }.

Definition hex : char_class := [(ch "0", ch "9"); (ch "a", ch "f")].

(** [^[0-9a-f]{8}-[0-9a-f]{4}-[1-5][0-9a-f]{3}-[89ab][0-9a-f]{3}-[0-9a-f]{12}$] *)
Definition uuid_pattern : list piece :=
  [ Piece hex 8; Piece [(ch "-", ch "-")] 1;
    Piece hex 4; Piece [(ch "-", ch "-")] 1;
    Piece [(ch "1", ch "5")] 1; Piece hex 3; Piece [(ch "-", ch "-")] 1;
    Piece [(ch "8", ch "8"); (ch "9", ch "9"); (ch "a", ch "a"); (ch "b", ch "b")] 1;
    Piece hex 3; Piece [(ch "-", ch "-")] 1;
    Piece hex 12 ].

Definition isUuid (value : jsstring) : bool := regexp_test uuid_pattern value.

(** The result of a validator: [{ valid, data?, error? }]. *)
Record validation (A : Type) :=
  { valid : bool; data : option A; error : option jsstring }.
Arguments valid {A} v.
Arguments data {A} v.
Arguments error {A} v.

Definition invalid {A} (msg : jsstring) : validation A :=
  {| valid := false; data := None; error := Some msg |}.

(** The messages of the validator; the names of the fields are between
    quotation marks in the source. *)
Definition not_an_object : jsstring :=
  js "Request body must be a JSON object.".
Definition title_required : jsstring :=
  in_quotes (js "title") ++ js " is required and must be a non-empty string.".
Definition profile_id_required : jsstring :=
  in_quotes (js "profile_id") ++ js " is required and must be a valid UUID.".
Definition content_invalid : jsstring :=
  in_quotes (js "content") ++ js " must be a string or null when provided.".

Definition validateCreatePostPayload (payload : json)
  : validation CreatePostPayload :=
  if negb (truthy (Some payload)) || negb (is_object (Some payload)) then
    invalid not_an_object
  else
    let body := payload in
    match as_string (prop body (js "title")) with
    | None => invalid title_required
    | Some title_ =>
        if (length (trim title_) =? 0)%nat then
          invalid title_required
        else
          match as_string (prop body (js "profile_id")) with
          | None => invalid profile_id_required
          | Some profile_id_ =>
              if negb (isUuid profile_id_) then
                invalid profile_id_required
              else
                let content_ := prop body (js "content") in
                if negb (is_undefined content_) && negb (is_null content_)
                   && negb (is_string content_) then
                  invalid content_invalid
                else
                  {| valid := true;
                     data :=
                       Some {| title := trim title_;
                               content :=
                                 if is_undefined content_ then None
                                 else as_string content_;
                               profile_id := profile_id_ |};
                     error := None |}
          end
    end.

(** The object [validation.data] as [insert] receives it. *)
Definition payload_object (d : CreatePostPayload) : gmap jsstring json :=
  {[ js "title" := JStr (title d);
     js "content" := match content d with Some c => JStr c | None => JNull end;
     js "profile_id" := JStr (profile_id d) ]}.

(** [if (error) ...]: the error object is truthy when it is not [null]. *)
Definition GET : handler :=
  Await SelectPosts (fun r =>
    match Next.error r with
    | Some e =>
        Respond (json_response (field (js "error") (Some (JStr (message e)))) 500)
    | None =>
        Respond (json_response (field (js "data") (Some (Next.data r))) 200)
    end).

Definition POST : handler :=
  RequestJson (fun parsed =>
    match parsed with
    | Throw _ =>
        Respond (json_response
                   (field (js "error") (Some (JStr (js "Invalid JSON body.")))) 400)
    | Normal payload =>
        let validation := validateCreatePostPayload payload in
        match negb (valid validation), data validation with
        | false, Some d =>
            Await (InsertPost (payload_object d)) (fun r =>
              match Next.error r with
              | Some e =>
                  Respond (json_response
                             (field (js "error") (Some (JStr (message e)))) 500)
              | None =>
                  Respond (json_response (field (js "data") (Some (Next.data r))) 201)
              end)
        | _, _ =>
            Respond (json_response
                       (field (js "error") (JStr <$> error validation)) 400)
        end
    end).

End Posts.

(* ===================================================================== *)
(** * [app/api/posts/[id]/route.ts] *)
(* ===================================================================== *)

Module PostById.
Import JS Json Next.

(** [UpdatePostPayload] has two optional properties, [title?: string]
    and [content?: string | null]: a value of it is an object in which
    each of them may be missing, and is kept as one. *)
Abbreviation UpdatePostPayload := (gmap jsstring json).

(** The same function as in the other route. *)
Definition isUuid (value : jsstring) : bool :=
  regexp_test Posts.uuid_pattern value.

Record validation :=
  { valid : bool; data : option UpdatePostPayload;
    error : option jsstring }.

Definition invalid (msg : jsstring) : validation :=
  {| valid := false; data := None; error := Some msg |}.

Definition not_an_object : jsstring :=
  js "Request body must be a JSON object.".
Definition field_required : jsstring :=
  js "At least one field is required: " ++ in_quotes (js "title")
  ++ js " or " ++ in_quotes (js "content") ++ js ".".
Definition title_invalid : jsstring :=
  in_quotes (js "title") ++ js " must be a non-empty string when provided.".
Definition content_invalid : jsstring :=
  in_quotes (js "content") ++ js " must be a string or null when provided.".

(** [updates] starts as the empty object and receives its properties by
    assignment.  A property of the body is [undefined] exactly when the
    body does not have it: JSON has no [undefined]. *)
Definition validateUpdatePayload (payload : json) : validation :=
  if negb (truthy (Some payload)) || negb (is_object (Some payload)) then
    invalid not_an_object
  else
    let body := payload in
    if is_undefined (prop body (js "title"))
       && is_undefined (prop body (js "content")) then
      invalid field_required
    else
      let updates : UpdatePostPayload := ∅ in
      let after_title : option UpdatePostPayload :=
        if negb (is_undefined (prop body (js "title"))) then
          match as_string (prop body (js "title")) with
          | None => None
          | Some t =>
              if (length (trim t) =? 0)%nat then None
              else Some (<[ js "title" := JStr (trim t) ]> updates)
          end
        else Some updates in
      match after_title with
      | None => invalid title_invalid
      | Some updates =>
          match prop body (js "content") with
          | Some c =>
              if negb (is_null (Some c)) && negb (is_string (Some c)) then
                invalid content_invalid
              else
                {| valid := true;
                   data := Some (<[ js "content" := c ]> updates);
                   error := None |}
          | None =>
              {| valid := true; data := Some updates; error := None |}
          end
      end.

Definition invalidIdResponse : response :=
  json_response
    (field (js "error") (Some (JStr (js "Invalid post id. Expected UUID.")))) 400.

Definition server_error (e : PostgrestError) : response :=
  json_response (field (js "error") (Some (JStr (message e)))) 500.

Definition not_found : response :=
  json_response (field (js "error") (Some (JStr (js "Post not found.")))) 404.

Definition GET (id : jsstring) : handler :=
  if negb (isUuid id) then Respond invalidIdResponse
  else
    Await (SelectPost id) (fun r =>
      match Next.error r with
      | Some e => Respond (server_error e)
      | None =>
          if negb (truthy (Some (Next.data r))) then Respond not_found
          else Respond (json_response (field (js "data") (Some (Next.data r))) 200)
      end).

Definition PUT (id : jsstring) : handler :=
  if negb (isUuid id) then Respond invalidIdResponse
  else
    RequestJson (fun parsed =>
      match parsed with
      | Throw _ =>
          Respond (json_response
                     (field (js "error") (Some (JStr (js "Invalid JSON body.")))) 400)
      | Normal payload =>
          let validation := validateUpdatePayload payload in
          match negb (valid validation), data validation with
          | false, Some updates =>
              Await (UpdatePost updates id) (fun r =>
                match Next.error r with
                | Some e => Respond (server_error e)
                | None =>
                    if negb (truthy (Some (Next.data r))) then Respond not_found
                    else Respond (json_response
                                    (field (js "data") (Some (Next.data r))) 200)
                end)
          | _, _ =>
              Respond (json_response
                         (field (js "error") (JStr <$> error validation)) 400)
          end
      end).

Definition DELETE (id : jsstring) : handler :=
  if negb (isUuid id) then Respond invalidIdResponse
  else
    Await (DeletePost id) (fun r =>
      match Next.error r with
      | Some e => Respond (server_error e)
      | None =>
          if negb (truthy (Some (Next.data r))) then Respond not_found
          else Respond {| status := 204; payload := None |}
      end).

End PostById.

(* ===================================================================== *)
(** * [app/page.tsx]: the content codec *)
(* ===================================================================== *)

Module Page.
Import JS Json.

(** [MediaItem].  The type of [kind] is ['image' | 'video'], which is
    erased when the program runs: the field holds a string. *)
Record MediaItem := { id : jsstring; kind : jsstring; url : jsstring }.

(** [{ body, published, media }], the type [ParsedContent] and the type
    of the argument of [serializeContent].  The entries of [media] are
    [MediaItem]s in what the program builds itself; in what
    [parsePostContent] returns they are the objects read from the text,
    which have the properties of a [MediaItem] and may have others. *)
Record Content (I : Type) :=
  { body : jsstring; published : bool; media : list I }.
Arguments body {I} c.
Arguments published {I} c.
Arguments media {I} c.

Abbreviation ParsedContent := (Content (gmap jsstring json)).

Definition defaultProfileId : jsstring :=
  js "00000000-0000-4000-8000-000000000001".

(** The predicate of [parsed.media.filter(...)]. *)
Definition is_media_item (item : json) : bool :=
  truthy (Some item)
  && is_object (Some item)
  && is_string (prop item (js "id"))
  && (is_literal (prop item (js "kind")) (js "image")
      || is_literal (prop item (js "kind")) (js "video"))
  && is_string (prop item (js "url")).

(** [{ ...item, url: item.url.trim() }] for an item that passed the
    filter: an object with a string [url] (lemma [is_media_item_inv]);
    the other cases are not reached. *)
Definition with_trimmed_url (item : json) : gmap jsstring json :=
  match item with
  | JObj o =>
      match as_string (o !! js "url") with
      | Some u => <[ js "url" := JStr (trim u) ]> o
      | None => o
      end
  | _ => ∅
  end.

(** The block under [try]. *)
Definition parse_structured (raw : jsstring) : completion ParsedContent :=
  bind (JSON_parse raw) (fun parsed =>
  bind (get parsed (js "media")) (fun parsed_media =>
  let media_ :=
    match parsed_media with
    | Some (JArr items) => map with_trimmed_url (filter (fun item => is_media_item item = true) items)
    | _ => []
    end in
  bind (get parsed (js "body")) (fun parsed_body =>
  bind (get parsed (js "published")) (fun parsed_published =>
  Normal {| body := match as_string parsed_body with Some b => b | None => [] end;
            published := truthy parsed_published;
            media := media_ |})))).

(** [raw] is a string or [null]; [!raw] holds for [null] and for the
    empty string. *)
Definition parsePostContent (raw : option jsstring) : ParsedContent :=
  match raw with
  | None => {| body := []; published := false; media := [] |}
  | Some [] => {| body := []; published := false; media := [] |}
  | Some raw =>
      match parse_structured raw with
      | Normal result => result
      | Throw _ => {| body := raw; published := false; media := [] |}
      end
  end.

(** The object a [MediaItem] is, for [JSON.stringify]: its three
    declared properties, in the order in which [addMedia] creates them.
    An entry that [parsePostContent] has read keeps the order of the
    stored text; the value that the text denotes is the same in every
    order. *)
Definition item_value (item : MediaItem) : jsvalue :=
  VObj [ (js "id", VStr (id item));
         (js "kind", VStr (kind item));
         (js "url", VStr (url item)) ].

Definition serializeContent (data : Content MediaItem) : jsstring :=
  JSON_stringify
    (VObj [ (js "body", VStr (body data));
            (js "published", VBool (published data));
            (js "media",
              VArr (map item_value
                      (filter (fun item => (0 < length (trim (url item)))%nat)
                              (media data)))) ]).

(* --------------------------------------------------------------------- *)
(** ** The admin form: editing the media list and submitting *)

(** [Partial<MediaItem>]: each property may be missing. *)
Record MediaUpdates :=
  { new_id : option jsstring; new_kind : option jsstring;
    new_url : option jsstring }.

(** [{ ...item, ...updates }] *)
Definition merge (item : MediaItem) (updates : MediaUpdates) : MediaItem :=
  {| id := default (id item) (new_id updates);
     kind := default (kind item) (new_kind updates);
     url := default (url item) (new_url updates) |}.

(** The functions below are those given to [setMediaItems]: from the
    list of the state to the next one.  [uid()] draws a random text,
    which [addMedia] receives here as [fresh]. *)
Definition addMedia (fresh : jsstring) (kind_ : jsstring)
    (items : list MediaItem) : list MediaItem :=
  items ++ [ {| id := fresh; kind := kind_; url := [] |} ].

Definition updateMedia (id_ : jsstring) (updates : MediaUpdates)
    (items : list MediaItem) : list MediaItem :=
  map (fun item => if decide (id item = id_) then merge item updates else item)
      items.

Definition removeMedia (id_ : jsstring) (items : list MediaItem)
  : list MediaItem :=
  filter (fun item => id item ≠ id_) items.

(** The index at which [splice(start, ...)] works on an array of [len]
    elements, for an integer [start]: a negative one counts from the
    end, and the result is kept between [0] and [len]. *)
Definition splice_start (len start : Z) : Z :=
  if (start <? 0)%Z then Z.max (len + start) 0 else Z.min start len.

(** [reorderMedia], for integer indices.  The array may come to hold
    [undefined], which is [None]: [moved] is [undefined] when the first
    [splice] removed nothing. *)
Definition reorderMedia (fromIndex toIndex : Z) (items : list MediaItem)
  : list (option MediaItem) :=
  let next := map Some items in
  let a := Z.to_nat (splice_start (Z.of_nat (length next)) fromIndex) in
  let removed := take 1 (drop a next) in
  let next := take a next ++ drop (a + 1) next in
  let moved := match removed with m :: _ => m | [] => None end in
  let b := Z.to_nat (splice_start (Z.of_nat (length next)) toIndex) in
  take b next ++ moved :: drop b next.

(** The payload of [onSubmit] and where it goes. *)
Definition submit_payload (title profileId : jsstring)
    (data : Content MediaItem) : jsvalue :=
  VObj [ (js "title", VStr title);
         (js "profile_id", VStr profileId);
         (js "content", VStr (serializeContent data)) ].

(** [selectedPostId ? ... : ...]: [null] and the empty text are falsy. *)
Definition submit_url (selectedPostId : option jsstring) : jsstring :=
  if truthy (JStr <$> selectedPostId)
  then js "/api/posts/" ++ default [] selectedPostId
  else js "/api/posts".

Definition submit_method (selectedPostId : option jsstring) : jsstring :=
  if truthy (JStr <$> selectedPostId) then js "PUT" else js "POST".

(** The body of the request: [JSON.stringify(payload)]. *)
Definition submit_body (title profileId : jsstring)
    (data : Content MediaItem) : jsstring :=
  JSON_stringify (submit_payload title profileId data).

(* --------------------------------------------------------------------- *)
(** ** The gallery: slides and the modal *)

Record Post :=
  { post_id : jsstring; post_title : jsstring;
    post_content : option jsstring; post_media_id : option jsstring;
    post_profile_id : jsstring; post_created_at : jsstring }.

Inductive Slide :=
  | ImageSlide (src alt : jsstring)
  | VideoSlide (src : jsstring).

Definition demoVideo : jsstring :=
  js "https://interactive-examples.mdn.mozilla.net/media/cc0-videos/flower.mp4".

Definition buildSlides (post : Post) : list Slide :=
  [ ImageSlide (js "https://picsum.photos/seed/" ++ post_id post ++ js "-1/900/900")
               (post_title post ++ js " slide 1");
    ImageSlide (js "https://picsum.photos/seed/" ++ post_id post ++ js "-2/900/900")
               (post_title post ++ js " slide 2");
    VideoSlide demoVideo ].

(** The state of the modal.  [activeSlide] is a number, an integer or
    [NaN], which is [None]. *)
Record Modal := { selectedPost : option Post; activeSlide : option Z }.

(** [useMemo(...)]: no slides without a selected post. *)
Definition slides (st : Modal) : list Slide :=
  match selectedPost st with
  | None => []
  | Some post => buildSlides post
  end.

(** [a % n] on integers: the remainder has the sign of [a], and is [NaN]
    when [n] is zero. *)
Definition remainder (a n : Z) : option Z :=
  if (n =? 0)%Z then None else Some (Z.rem a n).

Definition openModal (post : Post) (st : Modal) : Modal :=
  {| selectedPost := Some post; activeSlide := Some 0%Z |}.

Definition closeModal (st : Modal) : Modal :=
  {| selectedPost := None; activeSlide := Some 0%Z |}.

Definition nextSlide (st : Modal) : Modal :=
  {| selectedPost := selectedPost st;
     activeSlide :=
       match activeSlide st with
       | Some current =>
           remainder (current + 1) (Z.of_nat (length (slides st)))
       | None => None
       end |}.

Definition previousSlide (st : Modal) : Modal :=
  {| selectedPost := selectedPost st;
     activeSlide :=
       match activeSlide st with
       | Some current =>
           remainder (current - 1 + Z.of_nat (length (slides st)))
                     (Z.of_nat (length (slides st)))
       | None => None
       end |}.

(** [slides[activeSlide]], which the modal renders. *)
Definition current_slide (st : Modal) : option Slide :=
  match activeSlide st with
  | Some i => if (i <? 0)%Z then None else slides st !! Z.to_nat i
  | None => None
  end.

(* --------------------------------------------------------------------- *)
(** ** The pages as clients of the handlers *)

(** [response.ok]: the status is from 200 to 299. *)
Definition response_ok (r : Next.response) : bool :=
  in_range 200 299 (Next.status r).

(** [await response.json()] in the page: the body of the response as a
    value; an empty body is not JSON. *)
Definition response_json (r : Next.response) : completion json :=
  match Next.payload r with
  | Some v => Normal v
  | None => Throw SyntaxError
  end.

(** The text of [requestError.message].  Everything thrown in the two
    blocks below is an [Error]: one made by [new Error(m)], whose message
    is [m] when [m] is a string and [String(m)] otherwise, or one thrown
    by the engine, which chooses its message. *)
Inductive message_text :=
  | Text (m : jsstring)
  | StringOf (v : json)
  | EngineMessage (e : error).

(** [v ?? d] *)
Definition nullish (v : option json) (d : json) : json :=
  match v with
  | None => d
  | Some JNull => d
  | Some x => x
  end.

(** The state that [loadPosts] of the gallery sets, while the page is
    mounted. *)
Record Gallery :=
  { posts : json; gallery_error : option message_text; loading : bool }.

(** The block under [try] of [loadPosts]: the posts, or the message of
    what was thrown. *)
Definition fetched_posts (r : Next.response) : message_text + json :=
  if negb (response_ok r) then inl (Text (js "Failed to fetch posts."))
  else
    match response_json r with
    | Throw e => inl (EngineMessage e)
    | Normal payload_ =>
        match get payload_ (js "data") with
        | Throw e => inl (EngineMessage e)
        | Normal data_ => inr (nullish data_ (JArr []))
        end
    end.

(** [loadPosts] of the gallery once [fetch] has given the response. *)
Definition loadPosts (r : Next.response) (st : Gallery) : Gallery :=
  match fetched_posts r with
  | inr data_ =>
      {| posts := data_; gallery_error := gallery_error st; loading := false |}
  | inl m =>
      {| posts := posts st; gallery_error := Some m; loading := false |}
  end.

(* --------------------------------------------------------------------- *)
(** ** The admin dashboard: loading and saving *)

Module Admin.

(** The state of [AdminDashboardPage]. *)
Record State :=
  { posts : json;
    loading : bool;
    error : option message_text;
    selectedPostId : option jsstring;
    title : jsstring;
    body : jsstring;
    published : bool;
    mediaItems : list MediaItem;
    profileId : jsstring;
    submitting : bool }.

Definition setPosts (v : json) (st : State) : State :=
  {| posts := v; loading := loading st; error := error st;
     selectedPostId := selectedPostId st; title := title st; body := body st;
     published := published st; mediaItems := mediaItems st;
     profileId := profileId st; submitting := submitting st |}.

Definition setLoading (v : bool) (st : State) : State :=
  {| posts := posts st; loading := v; error := error st;
     selectedPostId := selectedPostId st; title := title st; body := body st;
     published := published st; mediaItems := mediaItems st;
     profileId := profileId st; submitting := submitting st |}.

Definition setError (v : option message_text) (st : State) : State :=
  {| posts := posts st; loading := loading st; error := v;
     selectedPostId := selectedPostId st; title := title st; body := body st;
     published := published st; mediaItems := mediaItems st;
     profileId := profileId st; submitting := submitting st |}.

Definition setSubmitting (v : bool) (st : State) : State :=
  {| posts := posts st; loading := loading st; error := error st;
     selectedPostId := selectedPostId st; title := title st; body := body st;
     published := published st; mediaItems := mediaItems st;
     profileId := profileId st; submitting := v |}.

(** The block under [try] of [loadPosts]: the posts, or the message of
    what was thrown. *)
Definition loaded_posts (r : Next.response) : message_text + json :=
  if negb (response_ok r) then inl (Text (js "Unable to load posts."))
  else
    match response_json r with
    | Throw e => inl (EngineMessage e)
    | Normal payload_ =>
        match get payload_ (js "data") with
        | Throw e => inl (EngineMessage e)
        | Normal data_ => inr (nullish data_ (JArr []))
        end
    end.

(** [loadPosts] once [fetch] has given the response [r]. *)
Definition loadPosts (r : Next.response) (st : State) : State :=
  let st := setError None (setLoading true st) in
  let st :=
    match loaded_posts r with
    | inr data_ => setPosts data_ st
    | inl m => setError (Some m) st
    end in
  setLoading false st.

(** [startCreate] empties the form; the profile id stays. *)
Definition startCreate (st : State) : State :=
  {| posts := posts st; loading := loading st; error := error st;
     selectedPostId := None; title := []; body := [];
     published := false; mediaItems := [];
     profileId := profileId st; submitting := submitting st |}.

(** The record that [onSubmit] gives to [serializeContent], and the body
    of its request. *)
Definition form_content (st : State) : Content MediaItem :=
  {| Page.body := body st; Page.published := published st;
     Page.media := mediaItems st |}.

Definition request_body (st : State) : jsstring :=
  submit_body (title st) (profileId st) (form_content st).

(** The message of the [Error] that [onSubmit] throws on a response that
    is not ok.  A body that is not JSON counts as the empty object. *)
Definition save_failure (r : Next.response) : message_text :=
  let responsePayload :=
    match response_json r with
    | Normal v => v
    | Throw _ => JObj ∅
    end in
  match get responsePayload (js "error") with
  | Throw e => EngineMessage e
  | Normal v =>
      match nullish v (JStr (js "Unable to save post.")) with
      | JStr m => Text m
      | other => StringOf other
      end
  end.

(** [onSubmit] once [fetch] has given the response [saved] to the request
    of the form; [listed] is the response that [fetch] gives to the
    request of [loadPosts], which is sent when [saved] is ok. *)
Definition onSubmit (saved listed : Next.response) (st : State) : State :=
  let st := setError None (setSubmitting true st) in
  let st :=
    if negb (response_ok saved) then setError (Some (save_failure saved)) st
    else
      let st := loadPosts listed st in
      if negb (truthy (JStr <$> selectedPostId st)) then startCreate st
      else st in
  setSubmitting false st.

End Admin.

End Page.

(* ===================================================================== *)
(** * What the specification says, in its own words

    The definitions of this module are not taken from the sources: they
    state what the specification of the program asks for, to be compared
    with the functions above. *)
(* ===================================================================== *)

Module Spec.
Import JS Json.

(** A hexadecimal digit, in either case. *)
Definition is_hex (c : N) : Prop :=
  (48 ≤ c ≤ 57)%N ∨ (97 ≤ c ≤ 102)%N ∨ (65 ≤ c ≤ 70)%N.

(** The hyphen. *)
Definition dash : N := 45.

(** The canonical text of a UUID: 36 characters, five groups of 8, 4, 4,
    4 and 12 hexadecimal digits with hyphens between them; the first
    digit of the third group, the version, is from 1 to 5, and the first
    digit of the fourth, the variant, is 8, 9, a or b in either case. *)
Definition canonical_uuid (s : jsstring) : Prop :=
  ∃ (g1 g2 : jsstring) (version : N) (g3 : jsstring) (variant : N)
    (g4 g5 : jsstring),
    s = g1 ++ dash :: g2 ++ dash :: version :: g3 ++ dash
           :: variant :: g4 ++ dash :: g5
    ∧ length s = 36
    ∧ length g1 = 8 ∧ length g2 = 4 ∧ length (version :: g3) = 4
    ∧ length (variant :: g4) = 4 ∧ length g5 = 12
    ∧ Forall is_hex (g1 ++ g2 ++ g3 ++ g4 ++ g5)
    ∧ (49 ≤ version ≤ 53)%N
    ∧ (variant = 56 ∨ variant = 57 ∨ variant = 97 ∨ variant = 98
       ∨ variant = 65 ∨ variant = 66)%N.

(** A structured body: an object or an array, that is, neither [null]
    nor a primitive. *)
Definition structured (p : json) : Prop :=
  (∃ o, p = JObj o) ∨ (∃ l, p = JArr l).

(** The rules of the create-payload validator after the first. *)
Definition title_ok (p : json) : Prop :=
  ∃ t, prop p (js "title") = Some (JStr t) ∧ trim t ≠ [].

Definition profile_id_ok (p : json) : Prop :=
  ∃ u, prop p (js "profile_id") = Some (JStr u) ∧ Posts.isUuid u = true.

Definition content_ok (p : json) : Prop :=
  prop p (js "content") = None ∨ prop p (js "content") = Some JNull
  ∨ ∃ c, prop p (js "content") = Some (JStr c).

(** The rules of the update-payload validator on a field: it is absent
    or it is valid. *)
Definition update_title_ok (p : json) : Prop :=
  prop p (js "title") = None ∨ title_ok p.

(** The partial update a valid body asks for: the trimmed title when
    there is a title, the content as it is when there is a content. *)
Definition expected_update (p : json) : gmap jsstring json :=
  match prop p (js "content") with
  | Some c => <[ js "content" := c ]>
  | None => λ u, u
  end
    (match as_string (prop p (js "title")) with
     | Some t => {[ js "title" := JStr (trim t) ]}
     | None => ∅
     end).

(** A handler surfaces the failures of the backend: in every run in
    which a query is answered with an error, the response is the server
    error 500 with the message of that error, the query is the only one
    of the run and nothing happens after it. *)
Definition surfaces_failure (h : Next.handler) : Prop :=
  ∀ (w : Next.world) (q : Next.query) (a : Next.PostgrestResponse)
    (e : Next.PostgrestError),
    In (Next.Queried q a) (Next.run w h).2 → Next.error a = Some e →
    (Next.run w h).1
    = {| Next.status := 500;
         Next.payload := Some (JObj {[ js "error" := JStr (Next.message e) ]}) |}
    ∧ Next.queries (Next.run w h).2 = [q]
    ∧ last (Next.run w h).2 = Some (Next.Queried q a).

(** The value a serialized value denotes, which [JSON.parse] gives back
    from its text: the properties of an object are set one after the
    other, in their order. *)
Fixpoint to_json (v : jsvalue) : json :=
  match v with
  | VBool b => JBool b
  | VStr s => JStr s
  | VArr l => JArr (map to_json l)
  | VObj fields =>
      JObj (foldl (fun o kv => <[ fst kv := to_json (snd kv) ]> o) ∅ fields)
  end.

(** What reading one more code unit [c] in front of a text gives. *)
Definition cons_chars (c : N) (p : parsed jsstring) : parsed jsstring :=
  match p with
  | Ok t rest => Ok (c :: t) rest
  | other => other
  end.

(** The code units a serialized value can start with: none is white
    space or a closing bracket. *)
Definition opens_value (c : N) : Prop :=
  c = quote_mark ∨ c = ch "[" ∨ c = ch "{" ∨ c = ch "t" ∨ c = ch "f".

(** [parse_value] reads the text of [v] back, whatever follows it, when
    it has enough fuel. *)
Definition parses_back (v : jsvalue) : Prop :=
  ∀ rest, ∃ f0, ∀ f, f0 ≤ f →
    parse_value f (JSON_stringify v ++ rest) = Ok (to_json v) rest.

(** The text of a property of an object. *)
Definition field_text (kv : jsstring * jsvalue) : jsstring :=
  quote (fst kv) ++ ch ":" :: JSON_stringify (snd kv).

(** An entry of a media list that the codec keeps: an object with a
    string [id], a [kind] that is exactly [image] or [video], and a
    string [url], here [u]. *)
Definition media_entry (v : json) (o : gmap jsstring json) (u : jsstring)
  : Prop :=
  v = JObj o
  ∧ (∃ i, o !! js "id" = Some (JStr i))
  ∧ (o !! js "kind" = Some (JStr (js "image"))
     ∨ o !! js "kind" = Some (JStr (js "video")))
  ∧ o !! js "url" = Some (JStr u).

(** The media list decoded from a sequence: the entries that are kept,
    in their order, each with its [url] trimmed and its other
    properties as they are. *)
Inductive kept_media : list json → list (gmap jsstring json) → Prop :=
  | kept_nil : kept_media [] []
  | kept_keep v o u items out :
      media_entry v o u → kept_media items out →
      kept_media (v :: items) (<[ js "url" := JStr (trim u) ]> o :: out)
  | kept_drop v items out :
      (∀ o u, ¬ media_entry v o u) → kept_media items out →
      kept_media (v :: items) out.


Definition caption_only (raw : jsstring) : Page.ParsedContent :=
  {| Page.body := raw; Page.published := false; Page.media := [] |}.

(** A media item as the object it is. *)
Definition item_object (m : Page.MediaItem) : gmap jsstring json :=
  {[ js "id" := JStr (Page.id m);
     js "kind" := JStr (Page.kind m);
     js "url" := JStr (Page.url m) ]}.

(** A media item is empty when its trimmed [url] is. *)
Definition has_url (m : Page.MediaItem) : Prop := trim (Page.url m) ≠ [].

Definition valid_kind (m : Page.MediaItem) : Prop :=
  Page.kind m = js "image" ∨ Page.kind m = js "video".

(** A record after its empty media entries are removed. *)
Definition without_empty_media (x : Page.Content Page.MediaItem)
  : Page.Content Page.MediaItem :=
  {| Page.body := Page.body x; Page.published := Page.published x;
     Page.media := filter has_url (Page.media x) |}.

(** A record with the [url] of each media entry trimmed. *)
Definition with_trimmed_urls (x : Page.Content Page.MediaItem)
  : Page.Content Page.MediaItem :=
  {| Page.body := Page.body x; Page.published := Page.published x;
     Page.media :=
       map (λ m, {| Page.id := Page.id m; Page.kind := Page.kind m;
                    Page.url := trim (Page.url m) |}) (Page.media x) |}.

(** A record of the program as a decoded record. *)
Definition as_parsed (x : Page.Content Page.MediaItem) : Page.ParsedContent :=
  {| Page.body := Page.body x; Page.published := Page.published x;
     Page.media := map item_object (Page.media x) |}.

(** The code units with which a JSON value can start. *)
Definition starts_json_value (c : N) : Prop :=
  c = quote_mark ∨ c = ch "[" ∨ c = ch "{" ∨ c = ch "t" ∨ c = ch "f"
  ∨ c = ch "n" ∨ c = ch "-" ∨ is_digit c = true.

(** What a visitor can do with the modal of the gallery. *)
Inductive modal_action :=
  | Open (post : Page.Post)
  | Close
  | Next
  | Previous.

Definition act (st : Page.Modal) (a : modal_action) : Page.Modal :=
  match a with
  | Open post => Page.openModal post st
  | Close => Page.closeModal st
  | Next => Page.nextSlide st
  | Previous => Page.previousSlide st
  end.

(** The modal to begin with: [useState(null)] and [useState(0)]. *)
Definition modal_init : Page.Modal :=
  {| Page.selectedPost := None; Page.activeSlide := Some 0%Z |}.

(** With a post selected, the active slide is one of its three slides. *)
Definition modal_ok (st : Page.Modal) : Prop :=
  Page.selectedPost st = None
  ∨ ∃ i, Page.activeSlide st = Some i ∧ (0 ≤ i < 3)%Z.

End Spec.

(* ===================================================================== *)
(** * Sample requests and backends *)
(* ===================================================================== *)

Module Example.
Import JS Json Next.

(** A request that tries to move a post to another profile. *)
Definition put_world : world :=
  {| request_json :=
       Normal (JObj {[ js "title" := JStr (js "New");
                       js "profile_id" := JStr (js "00000000-0000-4000-8000-000000000002") ]});
     backend := λ _, {| Next.data := JNull; Next.error := None |} |}.

(** A backend that is down. *)
Definition refused : PostgrestResponse :=
  {| data := JNull; error := Some {| message := js "connection refused" |} |}.

Definition failing_world : world :=
  {| request_json := Throw SyntaxError; backend := λ _, refused |}.

(** A backend that answers every query with no row and no error. *)
Definition empty_backend : query → PostgrestResponse :=
  λ _, {| data := JNull; error := None |}.

(** The request that the admin form sends for a title, a profile id and
    a record, against the empty backend. *)
Definition form_world (title profileId : jsstring)
    (data : Page.Content Page.MediaItem) : world :=
  {| request_json := JSON_parse (Page.submit_body title profileId data);
     backend := empty_backend |}.

Definition draft : Page.Content Page.MediaItem :=
  {| Page.body := js "hi"; Page.published := false; Page.media := [] |}.


(** The admin form with a new post typed in, and a post in the list. *)
Definition form : Page.Admin.State :=
  {| Page.Admin.posts := JArr [JStr (js "old")];
     Page.Admin.loading := false;
     Page.Admin.error := None;
     Page.Admin.selectedPostId := None;
     Page.Admin.title := js " Hello ";
     Page.Admin.body := js "hi";
     Page.Admin.published := true;
     Page.Admin.mediaItems := [];
     Page.Admin.profileId := Page.defaultProfileId;
     Page.Admin.submitting := false |}.

(** The request of that form, against the empty backend. *)
Definition form_request : world :=
  {| request_json := JSON_parse (Page.Admin.request_body form);
     backend := empty_backend |}.

Definition post : Page.Post :=
  {| Page.post_id := js "123e4567-e89b-12d3-a456-426614174000";
     Page.post_title := js "Hello"; Page.post_content := None;
     Page.post_media_id := None;
     Page.post_profile_id := js "00000000-0000-4000-8000-000000000001";
     Page.post_created_at := js "2024-01-01T00:00:00Z" |}.

End Example.

(* ===================================================================== *)
(** * The UUID validator *)
(* ===================================================================== *)

Import JS Json.

Section Regexp.

Lemma in_range_spec lo hi c : in_range lo hi c = true ↔ (lo ≤ c ≤ hi)%N.
Proof. unfold in_range. rewrite andb_true_iff, !N.leb_le. tauto. Qed.

Lemma match_rep_spec cls n s r :
  match_rep cls n s = Some r ↔
  ∃ g, s = g ++ r ∧ length g = n ∧ Forall (λ c, in_class_i cls c = true) g.
Proof.
  revert s. induction n as [|n IH]; intros s; simpl.
  - split.
    + intros [= ->]. exists []. auto.
    + intros (g & -> & Hl & _). destruct g; [done | discriminate].
  - destruct s as [|c s'].
    + split; [done|]. intros (g & Hs & Hl & _). destruct g; discriminate.
    + destruct (in_class_i cls c) eqn:Hc.
      * rewrite IH. split.
        -- intros (g & -> & Hl & Hg). exists (c :: g). simpl. auto.
        -- intros (g & Hs & Hl & Hg). destruct g as [|c' g]; [discriminate|].
           simpl in *. injection Hs as -> ->. inversion Hg; subst. exists g. auto with lia.
      * split; [done|]. intros (g & Hs & Hl & Hg).
        destruct g as [|c' g]; [discriminate|]. simpl in Hs. injection Hs as -> ->.
        inversion Hg; subst. congruence.
Qed.

Lemma match_seq_cons p ps s r :
  match_seq (p :: ps) s = Some r ↔
  ∃ g t, s = g ++ t ∧ length g = piece_count p
         ∧ Forall (λ c, in_class_i (piece_class p) c = true) g
         ∧ match_seq ps t = Some r.
Proof.
  simpl. destruct (match_rep _ _ s) as [t|] eqn:Hm.
  - apply match_rep_spec in Hm as (g & -> & Hl & Hg). split.
    + intros H. exists g, t. auto.
    + intros (g' & t' & Hs & Hl' & Hg' & Hr).
      assert (g' = g ∧ t' = t) as [-> ->]; [|done].
      apply app_inj_1 in Hs as [-> ->]; [done | congruence].
  - split; [done|]. intros (g & t & -> & Hl & Hg & _).
    assert (match_rep (piece_class p) (piece_count p) (g ++ t) = Some t) as Hx.
    { apply match_rep_spec. eauto. }
    congruence.
Qed.

End Regexp.

Lemma canonicalize_spec c :
  ((97 ≤ c ≤ 122)%N ∧ canonicalize c = (c - 32)%N)
  ∨ (¬ (97 ≤ c ≤ 122)%N ∧ canonicalize c = c).
Proof.
  unfold canonicalize. destruct (in_range 97 122 c) eqn:Hr.
  - left. apply in_range_spec in Hr. done.
  - right. rewrite <- in_range_spec. split; congruence.
Qed.

Lemma in_class_i_spec cls c :
  in_class_i cls c = true ↔
  ∃ a, In a (class_members cls) ∧ canonicalize a = canonicalize c.
Proof.
  unfold in_class_i. rewrite existsb_exists.
  split; intros (a & Hin & Heq); exists a; split; auto; by apply N.eqb_eq.
Qed.

(** Decides a class of the pattern: the members are listed, each side is
    canonicalized and the arithmetic is left to [lia]. *)
Ltac class_members_cases cls :=
  let l := eval vm_compute in (class_members cls) in
  change (class_members cls) with l in *; cbv [In] in *.

Ltac canon c :=
  let H := fresh in let E := fresh in
  destruct (canonicalize_spec c) as [[H E]|[H E]]; rewrite ?E in *; clear E.

Lemma hex_class c : in_class_i Posts.hex c = true ↔ Spec.is_hex c.
Proof.
  rewrite in_class_i_spec. unfold Spec.is_hex. split.
  - intros (a & Hin & Heq). class_members_cases Posts.hex.
    canon a; canon c; lia.
  - intros H.
    assert (∃ a, (a = c ∨ (a = c + 32 ∧ 65 ≤ c ≤ 70))%N ∧ In a (class_members Posts.hex)) as (a & Ha & Hin).
    { class_members_cases Posts.hex.
      destruct H as [H|[H|H]]; [exists c|exists c|exists (c + 32)%N]; split; lia. }
    exists a. split; [done|]. canon a; canon c; lia.
Qed.

Lemma dash_class c : in_class_i [(ch "-", ch "-")] c = true ↔ c = 45%N.
Proof.
  rewrite in_class_i_spec. split.
  - intros (a & Hin & Heq). class_members_cases [(ch "-", ch "-")].
    canon a; canon c; lia.
  - intros ->. exists 45%N. split; [|done]. class_members_cases [(ch "-", ch "-")]. lia.
Qed.

Lemma version_class c :
  in_class_i [(ch "1", ch "5")] c = true ↔ (49 ≤ c ≤ 53)%N.
Proof.
  rewrite in_class_i_spec. split.
  - intros (a & Hin & Heq). class_members_cases [(ch "1", ch "5")].
    canon a; canon c; lia.
  - intros H. exists c. split; [|done]. class_members_cases [(ch "1", ch "5")]. lia.
Qed.

Lemma variant_class c :
  in_class_i [(ch "8", ch "8"); (ch "9", ch "9"); (ch "a", ch "a"); (ch "b", ch "b")] c = true
  ↔ c = 56%N ∨ c = 57%N ∨ c = 97%N ∨ c = 98%N ∨ c = 65%N ∨ c = 66%N.
Proof.
  rewrite in_class_i_spec. split.
  - intros (a & Hin & Heq). class_members_cases [(ch "8", ch "8"); (ch "9", ch "9"); (ch "a", ch "a"); (ch "b", ch "b")].
    canon a; canon c; lia.
  - intros H.
    assert (∃ a, (a = c ∨ (a = c + 32 ∧ 65 ≤ c ≤ 66))%N ∧ In a (class_members [(ch "8", ch "8"); (ch "9", ch "9"); (ch "a", ch "a"); (ch "b", ch "b")])) as (a & Ha & Hin).
    { class_members_cases [(ch "8", ch "8"); (ch "9", ch "9"); (ch "a", ch "a"); (ch "b", ch "b")].
      destruct H as [H|[H|[H|[H|[H|H]]]]]; subst; [exists 56%N|exists 57%N|exists 97%N|exists 98%N|exists 97%N|exists 98%N]; split; lia. }
    exists a. split; [done|]. canon a; canon c; lia.
Qed.

Lemma Forall_singleton_length {A} (P : A → Prop) (g : list A) :
  length g = 1 → Forall P g → ∃ c, g = [c] ∧ P c.
Proof.
  destruct g as [|c [|? ?]]; try discriminate. intros _ H.
  inversion H; subst. eauto.
Qed.

Lemma Forall_hex_class g :
  Forall (λ c, in_class_i Posts.hex c = true) g ↔ Forall Spec.is_hex g.
Proof. apply Forall_iff. intros c. apply hex_class. Qed.

Lemma regexp_test_spec ps s :
  regexp_test ps s = true ↔ match_seq ps s = Some [].
Proof.
  unfold regexp_test. destruct (match_seq ps s) as [[|? ?]|]; split; congruence.
Qed.

(** C8: [isUuid] holds exactly of the canonical textual form of a UUID:
    36 code units, five groups of 8, 4, 4, 4 and 12 hexadecimal digits
    in either case, separated by hyphens, the first digit of the third
    group from [1] to [5] and the first digit of the fourth group one of
    [8], [9], [a], [b], [A], [B].  No other text passes, and the two
    route files have the same test. *)
Theorem isUuid_canonical (s : jsstring) :
  (Posts.isUuid s = true ↔ Spec.canonical_uuid s)
  ∧ PostById.isUuid s = Posts.isUuid s.
Proof.
  split; [|reflexivity].
  unfold Posts.isUuid. rewrite regexp_test_spec. unfold Posts.uuid_pattern. split.
  - intros H.
    repeat (apply match_seq_cons in H as (? & ? & -> & ? & ? & H)).
    simpl in H. injection H as ->. cbn [piece_count piece_class] in *.
    repeat match goal with
    | Hl : length ?g = 1, Hf : Forall _ ?g |- _ =>
        destruct (Forall_singleton_length _ g Hl Hf) as (? & -> & ?); clear Hl Hf
    end.
    repeat match goal with
    | Hf : in_class_i [(ch "-", ch "-")] _ = true |- _ => apply dash_class in Hf; subst
    | Hf : in_class_i [(ch "1", ch "5")] _ = true |- _ => apply version_class in Hf
    | Hf : in_class_i _ _ = true |- _ => apply variant_class in Hf
    | Hf : Forall (λ c, in_class_i _ c = true) _ |- _ => apply Forall_hex_class in Hf
    end.
    match goal with
    | |- Spec.canonical_uuid (?a ++ [_] ++ ?b ++ [_] ++ [?v] ++ ?c ++ [_] ++ [?w] ++ ?d ++ [_] ++ ?e ++ []) =>
        exists a, b, v, c, w, d, e
    end.
    rewrite app_nil_r. simpl.
    repeat (first [rewrite length_app | rewrite length_cons]).
    rewrite !Forall_app.
    repeat split; try done; try lia.
  - intros (g1 & g2 & version & g3 & variant & g4 & g5 & -> & _ & H1 & H2 & H3 & H4
            & H5 & Hhex & Hver & Hvar).
    rewrite !Forall_app in Hhex. destruct Hhex as (F1 & F2 & F3 & F4 & F5).
    simpl in H3, H4.
    apply match_seq_cons. exists g1. eexists. split; [reflexivity|].
    split; [done|]. split; [by apply Forall_hex_class|].
    apply match_seq_cons. exists [Spec.dash]. eexists. split; [reflexivity|].
    split; [done|]. split; [repeat constructor; by apply dash_class|].
    apply match_seq_cons. exists g2. eexists. split; [reflexivity|].
    split; [done|]. split; [by apply Forall_hex_class|].
    apply match_seq_cons. exists [Spec.dash]. eexists. split; [reflexivity|].
    split; [done|]. split; [repeat constructor; by apply dash_class|].
    apply match_seq_cons. exists [version]. eexists. split; [reflexivity|].
    split; [done|]. split; [repeat constructor; by apply version_class|].
    apply match_seq_cons. exists g3. eexists. split; [reflexivity|].
    split; [simpl; lia|]. split; [by apply Forall_hex_class|].
    apply match_seq_cons. exists [Spec.dash]. eexists. split; [reflexivity|].
    split; [done|]. split; [repeat constructor; by apply dash_class|].
    apply match_seq_cons. exists [variant]. eexists. split; [reflexivity|].
    split; [done|]. split; [repeat constructor; by apply variant_class|].
    apply match_seq_cons. exists g4. eexists. split; [reflexivity|].
    split; [simpl; lia|]. split; [by apply Forall_hex_class|].
    apply match_seq_cons. exists [Spec.dash]. eexists. split; [reflexivity|].
    split; [done|]. split; [repeat constructor; by apply dash_class|].
    apply match_seq_cons. exists g5, []. split; [by rewrite app_nil_r|].
    split; [done|]. split; [by apply Forall_hex_class|]. reflexivity.
Qed.

(* ===================================================================== *)
(** * The payload validators *)
(* ===================================================================== *)

Import Next.

Lemma structured_guard p :
  negb (truthy (Some p)) || negb (is_object (Some p)) = false ↔ Spec.structured p.
Proof.
  unfold Spec.structured. destruct p as [|b|n|s|l|o]; simpl.
  all: try (split; [discriminate | intros [[? [=]]|[? [=]]]]).
  - destruct b; simpl; (split; [discriminate | intros [[? [=]]|[? [=]]]]).
  - destruct (negb _); simpl; (split; [discriminate | intros [[? [=]]|[? [=]]]]).
  - destruct s; simpl; (split; [discriminate | intros [[? [=]]|[? [=]]]]).
  - split; eauto.
  - split; eauto.
Qed.

Lemma not_structured_guard p :
  ¬ Spec.structured p → negb (truthy (Some p)) || negb (is_object (Some p)) = true.
Proof.
  intros H. destruct (_ || _) eqn:E; [done|]. by apply structured_guard in E.
Qed.

Lemma length_eqb_nil {A} (l : list A) : (length l =? 0)%nat = true ↔ l = [].
Proof. destruct l; simpl; split; congruence. Qed.

(** C3: the create-payload validator checks its rules in order and
    stops at the first that fails: the body is a Spec.structured object; the
    title is a text that is not empty once trimmed; the profile id is a
    text that the UUID validator accepts; the content, when it is there
    and not null, is a text.  When all hold it returns the trimmed
    title, the profile id as given and the content, null when absent.
    It rejects the empty object for its title, a body with a title and a
    profile id that is no UUID for its profile id, and accepts a title
    with spaces around and a valid profile id, with the title trimmed and
    a null content. *)
Theorem create_rules (p : json) :
  (¬ Spec.structured p →
     Posts.validateCreatePostPayload p = Posts.invalid Posts.not_an_object)
  ∧ (Spec.structured p → ¬ Spec.title_ok p →
     Posts.validateCreatePostPayload p = Posts.invalid Posts.title_required)
  ∧ (Spec.structured p → Spec.title_ok p → ¬ Spec.profile_id_ok p →
     Posts.validateCreatePostPayload p = Posts.invalid Posts.profile_id_required)
  ∧ (Spec.structured p → Spec.title_ok p → Spec.profile_id_ok p → ¬ Spec.content_ok p →
     Posts.validateCreatePostPayload p = Posts.invalid Posts.content_invalid)
  ∧ (∀ t u, Spec.structured p → prop p (js "title") = Some (JStr t) → trim t ≠ [] →
       prop p (js "profile_id") = Some (JStr u) → Posts.isUuid u = true →
       Spec.content_ok p →
       Posts.validateCreatePostPayload p =
         {| Posts.valid := true;
            Posts.data :=
              Some {| Posts.title := trim t;
                      Posts.content := as_string (prop p (js "content"));
                      Posts.profile_id := u |};
            Posts.error := None |})
  ∧ Posts.validateCreatePostPayload (JObj ∅) = Posts.invalid Posts.title_required
  ∧ Posts.validateCreatePostPayload
      (JObj {[ js "title" := JStr (js "T");
               js "profile_id" := JStr (js "not-a-uuid") ]})
    = Posts.invalid Posts.profile_id_required
  ∧ Posts.validateCreatePostPayload
      (JObj {[ js "title" := JStr (js " T ");
               js "profile_id" := JStr (js "123e4567-e89b-12d3-a456-426614174000") ]})
    = {| Posts.valid := true;
         Posts.data :=
           Some {| Posts.title := js "T";
                   Posts.content := None;
                   Posts.profile_id := js "123e4567-e89b-12d3-a456-426614174000" |};
         Posts.error := None |}.
Proof.
  unfold Posts.validateCreatePostPayload at 1 2 3 4 5.
  split; [|split; [|split; [|split; [|split; [|split; [|split]]]]]];
    [| | | | |vm_compute; reflexivity..].
  - intros H. by rewrite not_structured_guard.
  - intros Hs Ht. apply structured_guard in Hs. rewrite Hs.
    destruct (prop p (js "title")) as [[| | |t| |]|] eqn:E; simpl; try done.
    destruct (length (trim t) =? 0)%nat eqn:El; [done|].
    exfalso. apply Ht. exists t. split; [done|]. intros Hn. rewrite Hn in El. done.
  - intros Hs (t & Ht & Hne) Hp. apply structured_guard in Hs. rewrite Hs, Ht. simpl.
    destruct (length (trim t) =? 0)%nat eqn:El; [by apply length_eqb_nil in El|].
    destruct (prop p (js "profile_id")) as [[| | |u| |]|] eqn:E; simpl; try done.
    destruct (Posts.isUuid u) eqn:Eu; [|done].
    exfalso. apply Hp. exists u. done.
  - intros Hs (t & Ht & Hne) (u & Hu & Hv) Hc. apply structured_guard in Hs.
    rewrite Hs, Ht. simpl.
    destruct (length (trim t) =? 0)%nat eqn:El; [by apply length_eqb_nil in El|].
    rewrite Hu. simpl. rewrite Hv. simpl.
    destruct (prop p (js "content")) as [[| | |c| |]|] eqn:E; simpl; try done.
    all: exfalso; apply Hc; unfold Spec.content_ok; rewrite E; eauto.
  - intros t u Hs Ht Hne Hu Hv Hc. apply structured_guard in Hs.
    rewrite Hs, Ht. simpl.
    destruct (length (trim t) =? 0)%nat eqn:El; [by apply length_eqb_nil in El|].
    rewrite Hu. simpl. rewrite Hv. simpl.
    destruct Hc as [Hc|[Hc|[c Hc]]]; rewrite Hc; reflexivity.
Qed.

(** The empty object fails the second rule and no other: it is
    Spec.structured and has no title. *)
Lemma create_rules_witness :
  Posts.validateCreatePostPayload (JObj ∅) = Posts.invalid Posts.title_required.
Proof.
  apply (proj1 (proj2 (create_rules (JObj ∅)))).
  - left. eexists. reflexivity.
  - intros (t & Ht & _). vm_compute in Ht. discriminate.
Defined.

Lemma js_title_content : js "title" ≠ js "content".
Proof. discriminate. Qed.

Lemma update_success p u :
  PostById.validateUpdatePayload p
  = {| PostById.valid := true; PostById.data := Some u; PostById.error := None |}
  ↔ Spec.structured p
    ∧ (prop p (js "title") ≠ None ∨ prop p (js "content") ≠ None)
    ∧ Spec.update_title_ok p ∧ Spec.content_ok p
    ∧ u = Spec.expected_update p.
Proof.
  unfold PostById.validateUpdatePayload, Spec.expected_update, Spec.update_title_ok, Spec.title_ok, Spec.content_ok.
  destruct (negb (truthy (Some p)) || negb (is_object (Some p))) eqn:Hg.
  { split; [discriminate|]. intros (Hs & _). apply structured_guard in Hs. congruence. }
  apply structured_guard in Hg.
  destruct (prop p (js "title")) as [vt|] eqn:Et; simpl.
  - destruct vt as [| | |t| |]; simpl;
      try (split; [discriminate | intros (_ & _ & [[=]|(? & [=] & _)] & _)]).
    destruct (length (trim t) =? 0)%nat eqn:El.
    { apply length_eqb_nil in El. split; [discriminate|].
      intros (_ & _ & [[=]|(? & [= <-] & ?)] & _). done. }
    assert (trim t ≠ []) by (intros E; rewrite E in El; done).
    destruct (prop p (js "content")) as [vc|] eqn:Ec.
    + destruct vc as [| | |c| |]; simpl;
        try (split; [discriminate | intros (_ & _ & _ & [[=]|[[=]|(? & [=])]] & _)]).
      * split; [intros [= <-]|intros (_ & _ & _ & _ & ->)]; naive_solver.
      * split; [intros [= <-]|intros (_ & _ & _ & _ & ->)]; naive_solver.
    + split; [intros [= <-]|intros (_ & _ & _ & _ & ->)]; naive_solver.
  - destruct (prop p (js "content")) as [vc|] eqn:Ec; simpl.
    + destruct vc as [| | |c| |]; simpl;
        try (split; [discriminate | intros (_ & _ & _ & [[=]|[[=]|(? & [=])]] & _)]).
      * split; [intros [= <-]|intros (_ & _ & _ & _ & ->)]; naive_solver.
      * split; [intros [= <-]|intros (_ & _ & _ & _ & ->)]; naive_solver.
    + split; [discriminate|]. intros (_ & [?|?] & _); done.
Qed.

Lemma update_result_shape p :
  (∃ u, PostById.validateUpdatePayload p
        = {| PostById.valid := true; PostById.data := Some u; PostById.error := None |})
  ∨ (∃ m, PostById.validateUpdatePayload p = PostById.invalid m).
Proof.
  unfold PostById.validateUpdatePayload.
  repeat (match goal with
          | |- context [if ?c then _ else _] => destruct c
          | |- context [match ?c with _ => _ end] => destruct c
          end; simpl; eauto).
Qed.

Lemma expected_update_title p :
  Spec.expected_update p !! js "title" = (λ t, JStr (trim t)) <$> as_string (prop p (js "title")).
Proof.
  unfold Spec.expected_update.
  destruct (prop p (js "content")); [rewrite lookup_insert_ne by discriminate|];
  destruct (as_string _); simpl; by rewrite ?lookup_singleton_eq, ?lookup_empty.
Qed.

Lemma expected_update_content p :
  Spec.expected_update p !! js "content" = prop p (js "content").
Proof.
  unfold Spec.expected_update.
  destruct (prop p (js "content")); [by rewrite lookup_insert_eq|].
  destruct (as_string _); [by rewrite lookup_singleton_ne by discriminate|by rewrite lookup_empty].
Qed.

Lemma expected_update_other p k :
  k ≠ js "title" → k ≠ js "content" → Spec.expected_update p !! k = None.
Proof.
  intros H1 H2. unfold Spec.expected_update.
  destruct (prop p (js "content")); [rewrite lookup_insert_ne by done|];
  destruct (as_string _); by rewrite ?lookup_singleton_ne, ?lookup_empty by done.
Qed.

Lemma update_data_expected p u :
  PostById.data (PostById.validateUpdatePayload p) = Some u →
  PostById.validateUpdatePayload p
  = {| PostById.valid := true; PostById.data := Some u; PostById.error := None |}.
Proof.
  intros H. destruct (update_result_shape p) as [[u' E]|[m E]]; rewrite E in H |- *.
  - by injection H as ->.
  - discriminate.
Qed.

Lemma update_valid_data p :
  PostById.valid (PostById.validateUpdatePayload p) = true →
  PostById.validateUpdatePayload p
  = {| PostById.valid := true; PostById.data := Some (Spec.expected_update p);
       PostById.error := None |}.
Proof.
  intros H. destruct (update_result_shape p) as [[u E]|[m E]].
  - pose proof E as E'. apply update_success in E' as (_ & _ & _ & _ & ->). done.
  - rewrite E in H. discriminate.
Qed.

(** C4, as the code has it: the update-payload validator rejects a
    structured body in which both title and content are absent, with the
    message [At least one field is required: "title" or "content".]  It
    succeeds exactly when the body is structured, has one of the two
    fields, and each field that is present is valid: a title that is a
    text, not empty once trimmed, a content that is a text or null.  The
    record it then returns has the trimmed title when the body has a
    title, the content as it is when the body has a content, null
    included, and no other property: a field that is absent from the
    body is absent from the record. *)
Theorem update_rules (p : json) :
  (Spec.structured p → prop p (js "title") = None → prop p (js "content") = None →
     PostById.validateUpdatePayload p = PostById.invalid PostById.field_required
     ∧ PostById.field_required
       = js "At least one field is required: " ++ in_quotes (js "title")
         ++ js " or " ++ in_quotes (js "content") ++ js ".")
  ∧ (PostById.valid (PostById.validateUpdatePayload p) = true
     ↔ Spec.structured p
       ∧ (prop p (js "title") ≠ None ∨ prop p (js "content") ≠ None)
       ∧ Spec.update_title_ok p ∧ Spec.content_ok p)
  ∧ (PostById.valid (PostById.validateUpdatePayload p) = true →
     ∃ u, PostById.validateUpdatePayload p
          = {| PostById.valid := true; PostById.data := Some u;
               PostById.error := None |}
        ∧ (∀ t, prop p (js "title") = Some (JStr t) →
             u !! js "title" = Some (JStr (trim t)))
        ∧ (prop p (js "title") = None → u !! js "title" = None)
        ∧ (∀ c, prop p (js "content") = Some c → u !! js "content" = Some c)
        ∧ (prop p (js "content") = None → u !! js "content" = None)
        ∧ (∀ k, k ≠ js "title" → k ≠ js "content" → u !! k = None)).
Proof.
  split; [|split].
  - intros Hs Ht Hc. split; [|reflexivity].
    unfold PostById.validateUpdatePayload.
    apply structured_guard in Hs. rewrite Hs, Ht, Hc. reflexivity.
  - split.
    + intros H. apply update_valid_data in H.
      apply update_success in H as (? & ? & ? & ? & _). done.
    + intros (Hs & Hp & Ht & Hc).
      assert (PostById.validateUpdatePayload p
              = {| PostById.valid := true;
                   PostById.data := Some (Spec.expected_update p);
                   PostById.error := None |}) as ->; [|done].
      apply update_success. done.
  - intros H. apply update_valid_data in H. eexists. split; [exact H|].
    split; [|split; [|split; [|split]]].
    + intros t Ht. rewrite expected_update_title, Ht. done.
    + intros Ht. rewrite expected_update_title, Ht. done.
    + intros c Hc. rewrite expected_update_content. done.
    + intros Hc. rewrite expected_update_content. done.
    + intros k. apply expected_update_other.
Qed.

(** A body that sets the content to null and has no title. *)
Lemma update_rules_witness :
  ∃ u, PostById.validateUpdatePayload (JObj {[ js "content" := JNull ]})
       = {| PostById.valid := true; PostById.data := Some u;
            PostById.error := None |}
     ∧ u !! js "content" = Some JNull
     ∧ u !! js "title" = None.
Proof.
  destruct (proj2 (proj2 (update_rules (JObj {[ js "content" := JNull ]}))))
    as (u & E & _ & Ht & Hc & _).
  - vm_compute. reflexivity.
  - exists u. split; [exact E|]. split.
    + apply Hc. vm_compute. reflexivity.
    + apply Ht. vm_compute. reflexivity.
Defined.

(** C4, as the claim has it, fails on the empty object: it is a
    structured body without title and content, and the message of the
    rejection is not [At least one field is required.] *)
Lemma update_rules_message_counterexample :
  Spec.structured (JObj ∅)
  ∧ prop (JObj ∅) (js "title") = None
  ∧ prop (JObj ∅) (js "content") = None
  ∧ PostById.validateUpdatePayload (JObj ∅)
    ≠ PostById.invalid (js "At least one field is required.").
Proof.
  split; [left; eauto|]. split; [reflexivity|]. split; [reflexivity|].
  vm_compute. discriminate.
Qed.

(* ===================================================================== *)
(** * The handlers *)
(* ===================================================================== *)

Lemma update_data_keys p u k :
  PostById.data (PostById.validateUpdatePayload p) = Some u →
  k ≠ js "title" → k ≠ js "content" → u !! k = None.
Proof.
  intros H H1 H2. apply update_data_expected in H.
  apply update_success in H as (_ & _ & _ & _ & ->).
  by apply expected_update_other.
Qed.

(** How a run unfolds. *)
Lemma run_respond w r : run w (Respond r) = (r, []).
Proof. reflexivity. Qed.

Lemma run_request w k :
  run w (RequestJson k)
  = ((run w (k (request_json w))).1, ReadBody :: (run w (k (request_json w))).2).
Proof. simpl. by destruct (run w (k (request_json w))). Qed.

Lemma run_await w q k :
  run w (Await q k)
  = ((run w (k (backend w q))).1,
     Queried q (backend w q) :: (run w (k (backend w q))).2).
Proof. simpl. by destruct (run w (k (backend w q))). Qed.

(** The queries of a run of the update handler: none, or the update of
    the post of the path with the record of the validator. *)
Lemma PUT_queries w id :
  queries (run w (PostById.PUT id)).2 = []
  ∨ ∃ p u, request_json w = Normal p
           ∧ PostById.data (PostById.validateUpdatePayload p) = Some u
           ∧ queries (run w (PostById.PUT id)).2 = [UpdatePost u id].
Proof.
  unfold PostById.PUT. destruct (negb (PostById.isUuid id)); [by left|].
  rewrite run_request. destruct (request_json w) as [p|e] eqn:Hp; [|by left].
  destruct (negb (PostById.valid (PostById.validateUpdatePayload p))); [by left|].
  destruct (PostById.data (PostById.validateUpdatePayload p)) as [u|] eqn:Hd;
    [|by left].
  right. exists p, u. split; [done|]. split; [done|].
  rewrite run_await. cbn [snd queries omap].
  destruct (Next.error (backend w (UpdatePost u id))); [done|].
  by destruct (negb _).
Qed.

(** C5: the update path never writes the profile id.  Whatever the
    request, a query the update handler sends to the backend is an
    update of the post of the path whose record has no property besides
    [title] and [content]: the profile id of the body, like any other
    field, is dropped.  The handler sends no other query. *)
Theorem update_never_writes_profile_id (w : world) (id : jsstring)
    (values : gmap jsstring json) (target : jsstring) :
  In (UpdatePost values target) (queries (run w (PostById.PUT id)).2) →
  dom values ⊆ {[ js "title"; js "content" ]}
  ∧ values !! js "profile_id" = None
  ∧ target = id
  ∧ (∀ q, In q (queries (run w (PostById.PUT id)).2) → q = UpdatePost values id).
Proof.
  destruct (PUT_queries w id) as [->|(p & u & _ & Hd & ->)]; [intros []|].
  intros [[= <- <-]|[]].
  split; [|split; [|split; [done|]]].
  - intros k Hk. apply elem_of_dom in Hk as [v Hk].
    destruct (decide (k = js "title")) as [->|?]; [set_solver|].
    destruct (decide (k = js "content")) as [->|?]; [set_solver|].
    rewrite (update_data_keys p u k) in Hk; done.
  - by apply (update_data_keys p u).
  - intros q [<-|[]]. done.
Qed.

Lemma update_never_writes_profile_id_witness :
  In (UpdatePost {[ js "title" := JStr (js "New") ]}
        (js "123e4567-e89b-12d3-a456-426614174000"))
     (queries (run Example.put_world
                 (PostById.PUT (js "123e4567-e89b-12d3-a456-426614174000"))).2)
  ∧ ({[ js "title" := JStr (js "New") ]} : gmap jsstring json)
      !! js "profile_id" = None.
Proof.
  assert (In (UpdatePost {[ js "title" := JStr (js "New") ]}
                (js "123e4567-e89b-12d3-a456-426614174000"))
             (queries (run Example.put_world
                (PostById.PUT (js "123e4567-e89b-12d3-a456-426614174000"))).2))
    as H by (vm_compute; left; reflexivity).
  split; [exact H|].
  exact (proj1 (proj2 (update_never_writes_profile_id _ _ _ _ H))).
Defined.

(** C6: when the identifier of the path fails the UUID validator, the
    read-one, update and delete handlers answer 400 with the message
    [Invalid post id. Expected UUID.] and do nothing else: the body of
    the request is not read and no query is sent. *)
Theorem invalid_id_rejected_first (w : world) (id : jsstring) :
  PostById.isUuid id = false →
  let bad := {| status := 400;
                payload := Some (JObj {[ js "error" :=
                             JStr (js "Invalid post id. Expected UUID.") ]}) |} in
  run w (PostById.GET id) = (bad, [])
  ∧ run w (PostById.PUT id) = (bad, [])
  ∧ run w (PostById.DELETE id) = (bad, []).
Proof.
  intros H. unfold PostById.GET, PostById.PUT, PostById.DELETE. rewrite H. simpl.
  done.
Qed.

Lemma surfaces_failure_await q0 k :
  (∀ a, Next.error a = None → ∃ r, k a = Respond r) →
  (∀ a e, Next.error a = Some e →
     k a = Respond {| status := 500;
                      payload := Some (JObj {[ js "error" := JStr (message e) ]}) |}) →
  Spec.surfaces_failure (Await q0 k).
Proof.
  intros Hok Herr w q a e. simpl.
  destruct (Next.error (backend w q0)) as [e0|] eqn:E.
  - rewrite (Herr _ _ E). simpl. intros [[= <- <-]|[]] Ha.
    rewrite E in Ha. injection Ha as ->. done.
  - destruct (Hok _ E) as [r ->]. simpl. intros [[= <- <-]|[]] Ha. congruence.
Qed.

Lemma surfaces_failure_respond r : Spec.surfaces_failure (Respond r).
Proof. intros w q a e []. Qed.

Lemma surfaces_failure_request k :
  (∀ c, Spec.surfaces_failure (k c)) → Spec.surfaces_failure (RequestJson k).
Proof.
  intros H w q a e. simpl. specialize (H (request_json w) w q a e).
  destruct (run w (k (request_json w))) as [r t]. simpl in *.
  intros [[=]|Hin] Ha. destruct (H Hin Ha) as (-> & Hq & Hl).
  split; [done|]. split; [done|].
  destruct t; [done|]. done.
Qed.

Lemma invalid_id_rejected_first_witness :
  run Example.put_world (PostById.PUT (js "not-a-uuid"))
  = ({| status := 400;
        payload := Some (JObj {[ js "error" :=
                     JStr (js "Invalid post id. Expected UUID.") ]}) |}, []).
Proof.
  apply (invalid_id_rejected_first Example.put_world (js "not-a-uuid")).
  vm_compute. reflexivity.
Defined.

(** C7: each of the five handlers (list, create, read-one, update,
    delete) surfaces a failure of the backend: the response is the server
    error 500 whose error text is the message of the backend, the failed
    query is the only query of the run and the last thing the run
    does. *)
Theorem backend_failure_surfaced :
  Spec.surfaces_failure Posts.GET
  ∧ Spec.surfaces_failure Posts.POST
  ∧ (∀ id, Spec.surfaces_failure (PostById.GET id))
  ∧ (∀ id, Spec.surfaces_failure (PostById.PUT id))
  ∧ (∀ id, Spec.surfaces_failure (PostById.DELETE id)).
Proof.
  split; [|split; [|split; [|split]]].
  - apply surfaces_failure_await.
    + intros a ->. eauto.
    + intros a e ->. done.
  - apply surfaces_failure_request. intros [p|e]; [|apply surfaces_failure_respond].
    cbv beta iota zeta.
    destruct (negb _), (Posts.data (Posts.validateCreatePostPayload p)); try apply surfaces_failure_respond.
    apply surfaces_failure_await.
    + intros a ->. eauto.
    + intros a e ->. done.
  - intros id. unfold PostById.GET. destruct (negb _); [apply surfaces_failure_respond|].
    apply surfaces_failure_await.
    + intros a ->. destruct (negb _); eauto.
    + intros a e ->. done.
  - intros id. unfold PostById.PUT. destruct (negb _); [apply surfaces_failure_respond|].
    apply surfaces_failure_request. intros [p|e]; [|apply surfaces_failure_respond].
    cbv beta iota zeta.
    destruct (negb _), (PostById.data (PostById.validateUpdatePayload p)); try apply surfaces_failure_respond.
    apply surfaces_failure_await.
    + intros a ->. destruct (negb _); eauto.
    + intros a e ->. done.
  - intros id. unfold PostById.DELETE. destruct (negb _); [apply surfaces_failure_respond|].
    apply surfaces_failure_await.
    + intros a ->. destruct (negb _); eauto.
    + intros a e ->. done.
Qed.

(** The list handler against a backend that is down. *)
Lemma backend_failure_surfaced_witness :
  (run Example.failing_world Posts.GET).1
  = {| status := 500;
       payload := Some (JObj {[ js "error" := JStr (js "connection refused") ]}) |}.
Proof.
  apply (proj1 backend_failure_surfaced Example.failing_world SelectPosts
           Example.refused {| message := js "connection refused" |}).
  - vm_compute. left. reflexivity.
  - reflexivity.
Defined.

(* ===================================================================== *)
(** * [JSON.parse] and [JSON.stringify] *)
(* ===================================================================== *)

Arguments Json.ch : simpl never.
Arguments Json.quote_mark : simpl never.

Lemma hex_value_digit n : (n < 16)%N → hex_value (hex_digit n) = Some n.
Proof.
  intros H. unfold hex_value, hex_digit, in_range.
  destruct (N.ltb_spec n 10).
  - replace ((48 <=? 48 + n)%N && (48 + n <=? 57)%N) with true.
    + f_equal. lia.
    + symmetry. apply andb_true_iff. rewrite !N.leb_le. lia.
  - replace ((48 <=? 87 + n)%N && (87 + n <=? 57)%N) with false.
    2:{ symmetry. apply andb_false_iff. right. apply N.leb_gt. lia. }
    replace ((97 <=? 87 + n)%N && (87 + n <=? 102)%N) with true.
    + f_equal. lia.
    + symmetry. apply andb_true_iff. rewrite !N.leb_le. lia.
Qed.

Lemma hex4_escape c :
  (c < 65536)%N →
  hex4_value (hex_digit (c / 4096 mod 16)) (hex_digit (c / 256 mod 16))
             (hex_digit (c / 16 mod 16)) (hex_digit (c mod 16)) = Some c.
Proof.
  intros H. unfold hex4_value.
  rewrite !hex_value_digit by (apply N.mod_lt; lia).
  f_equal.
  assert (c / 4096 < 16)%N by (apply N.Div0.div_lt_upper_bound; lia).
  rewrite (N.mod_small (c / 4096) 16) by done.
  pose proof (N.div_mod c 16 ltac:(lia)).
  pose proof (N.div_mod (c / 16) 16 ltac:(lia)).
  pose proof (N.div_mod (c / 16 / 16) 16 ltac:(lia)).
  rewrite !N.Div0.div_div in *.
  change (16 * 16)%N with 256%N in *. change (256 * 16)%N with 4096%N in *.
  assert (c / 4096 / 16 = 0)%N by (apply N.div_small; lia).
  pose proof (N.mod_lt (c / 4096) 16 ltac:(lia)).
  lia.
Qed.

Lemma parse_chars_literal c r :
  c ≠ quote_mark → c ≠ ch "\" → (32 ≤ c)%N →
  parse_chars (c :: r) = Spec.cons_chars c (parse_chars r).
Proof.
  intros H1 H2 H3. cbn [parse_chars].
  destruct (N.eqb_spec c quote_mark); [done|].
  destruct (N.eqb_spec c (ch "\")); [done|].
  destruct (N.ltb_spec c 32); [lia|]. by destruct (parse_chars r).
Qed.

Lemma parse_chars_unicode c r :
  (c < 65536)%N →
  parse_chars (unicode_escape c ++ r) = Spec.cons_chars c (parse_chars r).
Proof.
  intros H. unfold unicode_escape. cbn [app parse_chars].
  change (ch "\" =? quote_mark)%N with false.
  change (ch "\" =? ch "\")%N with true.
  change (ch "u" =? ch "u")%N with true.
  cbv iota. rewrite hex4_escape by done. by destruct (parse_chars r).
Qed.

Lemma parse_chars_escape e u r :
  e ≠ ch "u" → escape_value e = Some u →
  parse_chars (ch "\" :: e :: r) = Spec.cons_chars u (parse_chars r).
Proof.
  intros H1 H2. cbn [parse_chars].
  change (ch "\" =? quote_mark)%N with false.
  change (ch "\" =? ch "\")%N with true. cbv iota.
  destruct (N.eqb_spec e (ch "u")); [done|]. rewrite H2. by destruct (parse_chars r).
Qed.

Lemma parse_chars_quote_unit c r :
  parse_chars (quote_unit c ++ r) = Spec.cons_chars c (parse_chars r).
Proof.
  unfold quote_unit.
  repeat match goal with
  | |- context [(c =? ?k)%N] => destruct (N.eqb_spec c k) as [->|?]
  end; try (apply parse_chars_escape; [discriminate|reflexivity]).
  destruct (N.ltb_spec c 32).
  - apply parse_chars_unicode. lia.
  - by apply parse_chars_literal.
Qed.

Lemma surrogate_literal c :
  is_high_surrogate c = true ∨ is_low_surrogate c = true →
  c ≠ quote_mark ∧ c ≠ ch "\" ∧ (32 ≤ c)%N ∧ (c < 65536)%N.
Proof.
  unfold is_high_surrogate, is_low_surrogate, in_range.
  rewrite !andb_true_iff, !N.leb_le. unfold quote_mark.
  change (ch "\") with 92%N. lia.
Qed.

Lemma parse_chars_quote_chars s rest :
  parse_chars (quote_chars s ++ quote_mark :: rest) = Ok s rest.
Proof.
  remember (length s) as n eqn:Hn. revert s Hn.
  induction (lt_wf n) as [n _ IH]. intros s ->.
  destruct s as [|c r]; [reflexivity|]. cbn [quote_chars].
  destruct (is_high_surrogate c) eqn:Hh.
  - destruct (surrogate_literal c) as (? & ? & ? & ?); [auto|].
    destruct r as [|d r'].
    + rewrite parse_chars_unicode by done. reflexivity.
    + destruct (is_low_surrogate d) eqn:Hl.
      * destruct (surrogate_literal d) as (? & ? & ? & ?); [auto|].
        cbn [app]. rewrite !parse_chars_literal by done.
        rewrite (IH (length r')); [reflexivity|simpl; lia|done].
      * rewrite <- app_assoc, parse_chars_unicode by done.
        rewrite (IH (length (d :: r'))); [reflexivity|simpl; lia|done].
  - destruct (is_low_surrogate c) eqn:Hl.
    + destruct (surrogate_literal c) as (? & ? & ? & ?); [auto|].
      rewrite <- app_assoc, parse_chars_unicode by done.
      rewrite (IH (length r)); [reflexivity|simpl; lia|done].
    + rewrite <- app_assoc, parse_chars_quote_unit.
      rewrite (IH (length r)); [reflexivity|simpl; lia|done].
Qed.

(** One case analysis on what a hypothesis or the goal inspects. *)
Ltac break_hyp H :=
  match type of H with
  | context [match ?x with _ => _ end] => destruct x eqn:?
  end.

Ltac break_any :=
  match goal with
  | H : context [match ?x with _ => _ end] |- _ => destruct x eqn:?
  end.

Ltac break_goal :=
  match goal with
  | |- context [match ?x with _ => _ end] => destruct x eqn:?
  end.

Lemma skip_ws_length s : length (skip_ws s) ≤ length s.
Proof. induction s as [|c r IH]; simpl; [lia|]. destruct (is_json_ws c); simpl; lia. Qed.

Lemma parse_chars_length s t rest :
  parse_chars s = Ok t rest → length rest < length s.
Proof.
  remember (length s) as n eqn:Hn. revert s t rest Hn.
  induction (lt_wf n) as [n _ IH]. intros s t rest -> H.
  destruct s as [|c r]; [discriminate|]. cbn [parse_chars] in H.
  repeat break_hyp H; try discriminate; injection H as <- <-;
    try match goal with
    | E : parse_chars ?x = Ok _ _ |- _ =>
        eapply (IH (length x)) in E; [| |reflexivity]; subst; simpl in *; lia
    end.
  simpl. lia.
Qed.

Lemma parse_chars_fuel s : parse_chars s ≠ NoFuel.
Proof.
  remember (length s) as n eqn:Hn. revert s Hn.
  induction (lt_wf n) as [n _ IH]. intros s -> H.
  destruct s as [|c r]; [discriminate|]. cbn [parse_chars] in H.
  repeat break_hyp H; try discriminate;
    match goal with
    | E : parse_chars ?x = NoFuel |- _ =>
        eapply (IH (length x)) in E; [done| |reflexivity]; subst; simpl in *; lia
    end.
Qed.

Lemma span_digits_length acc s v n rest :
  span_digits acc s = (v, n, rest) → length rest + n = length s.
Proof.
  revert acc v n rest. induction s as [|c r IH]; intros acc v n rest H; simpl in H.
  - injection H as <- <- <-. done.
  - destruct (is_digit c).
    + destruct (span_digits _ r) as [[v' n'] rest'] eqn:E. injection H as <- <- <-.
      apply IH in E. simpl. lia.
    + injection H as <- <- <-. simpl. lia.
Qed.

Lemma span_digits_pos acc c r v n rest :
  span_digits acc (c :: r) = (v, n, rest) → is_digit c = true → 0 < n.
Proof.
  cbn [span_digits]. intros H D. rewrite D in H.
  destruct (span_digits _ r) as [[? ?] ?]. simplify_eq. lia.
Qed.

Lemma parse_frac_length mant s r rest :
  parse_frac mant s = Ok r rest → length rest ≤ length s.
Proof.
  unfold parse_frac. intros H.
  repeat break_hyp H; try discriminate; injection H as <- <-; subst;
    try match goal with
    | E : span_digits _ _ = _ |- _ => apply span_digits_length in E
    end; simpl in *; lia.
Qed.

Lemma parse_exp_length s e rest :
  parse_exp s = Ok e rest → length rest ≤ length s.
Proof.
  unfold parse_exp. intros H.
  repeat break_any; try discriminate; injection H as <- <-; subst;
    repeat match goal with
    | E : span_digits _ _ = _ |- _ => apply span_digits_length in E
    | E : (_, _) = (_, _) |- _ => simplify_eq
    end; simpl in *; lia.
Qed.

Lemma parse_number_length s n rest :
  parse_number s = Ok n rest → length rest < length s.
Proof.
  unfold parse_number. intros H.
  repeat break_any; try discriminate; injection H as <- <-; subst;
    repeat match goal with
    | E : span_digits _ (?c :: _) = _, D : is_digit ?c = true |- _ =>
        pose proof (span_digits_pos _ _ _ _ _ _ E D); apply span_digits_length in E
    | E : span_digits _ _ = _ |- _ => apply span_digits_length in E
    | E : parse_frac _ _ = _ |- _ => apply parse_frac_length in E
    | E : parse_exp _ = _ |- _ => apply parse_exp_length in E
    | E : (_, _) = (_, _) |- _ => simplify_eq
    end; simpl in *; lia.
Qed.

Lemma parse_frac_fuel mant s : parse_frac mant s ≠ NoFuel.
Proof. unfold parse_frac. intros H. repeat break_any; simplify_eq. Qed.

Lemma parse_exp_fuel s : parse_exp s ≠ NoFuel.
Proof. unfold parse_exp. intros H. repeat break_any; simplify_eq. Qed.

Lemma parse_number_fuel s : parse_number s ≠ NoFuel.
Proof.
  unfold parse_number. intros H.
  repeat break_hyp H; simplify_eq;
    match goal with
    | E : parse_frac _ _ = NoFuel |- _ => by apply parse_frac_fuel in E
    | E : parse_exp _ = NoFuel |- _ => by apply parse_exp_fuel in E
    end.
Qed.

Lemma strip_prefix_length w s rest :
  strip_prefix w s = Some rest → length rest + length w = length s.
Proof.
  revert s. induction w as [|a w IH]; intros s H; simpl in H.
  - injection H as <-. simpl. lia.
  - destruct s as [|c r]; [discriminate|]. destruct (a =? c)%N; [|discriminate].
    apply IH in H. simpl. lia.
Qed.

Lemma parse_word_length w v s v' rest :
  w ≠ [] → parse_word w v s = Ok v' rest → length rest < length s.
Proof.
  unfold parse_word. intros Hw H. destruct (strip_prefix w s) eqn:E; [|discriminate].
  injection H as <- <-. apply strip_prefix_length in E. destruct w; [done|]. simpl in E. lia.
Qed.

Lemma parse_word_fuel w v s : parse_word w v s ≠ NoFuel.
Proof. unfold parse_word. by destruct (strip_prefix w s). Qed.

(** Reading a value uses up some of the text. *)
Lemma parse_progress fuel :
  (∀ s v rest, parse_value fuel s = Ok v rest → length rest < length s)
  ∧ (∀ s l rest, parse_elements fuel s = Ok l rest → length rest < length s)
  ∧ (∀ o s o' rest, parse_members fuel o s = Ok o' rest → length rest < length s).
Proof.
  induction fuel as [|fuel (IHv & IHe & IHm)]; [by repeat split|].
  split; [|split].
  - intros s v rest H. cbn [parse_value] in H.
    pose proof (skip_ws_length s).
    destruct (skip_ws s) as [|c r] eqn:Hs; [discriminate|]. simpl in *.
    repeat break_hyp H; try discriminate;
      try (apply parse_word_length in H; [simpl in H; lia|discriminate]);
      injection H as <- <-; subst;
      repeat match goal with
      | E : parse_chars _ = Ok _ _ |- _ => apply parse_chars_length in E
      | E : parse_number _ = Ok _ _ |- _ => apply parse_number_length in E
      | E : parse_elements _ _ = Ok _ _ |- _ => apply IHe in E
      | E : parse_members _ _ _ = Ok _ _ |- _ => apply IHm in E
      | E : skip_ws ?x = _ |- _ =>
          let L := fresh in pose proof (skip_ws_length x) as L; rewrite E in L; clear E
      end; simpl in *; lia.
  - intros s l rest H. cbn [parse_elements] in H.
    repeat break_hyp H; try discriminate; injection H as <- <-; subst;
      repeat match goal with
      | E : parse_value _ _ = Ok _ _ |- _ => apply IHv in E
      | E : parse_elements _ _ = Ok _ _ |- _ => apply IHe in E
      | E : skip_ws ?x = _ |- _ =>
          let L := fresh in pose proof (skip_ws_length x) as L; rewrite E in L; clear E
      end; simpl in *; lia.
  - intros o s o' rest H. cbn [parse_members] in H.
    repeat break_hyp H; try discriminate; try injection H as <- <-; subst;
      repeat match goal with
      | E : parse_value _ _ = Ok _ _ |- _ => apply IHv in E
      | E : parse_chars _ = Ok _ _ |- _ => apply parse_chars_length in E
      | E : parse_members _ _ _ = Ok _ _ |- _ => apply IHm in E
      | E : skip_ws ?x = _ |- _ =>
          let L := fresh in pose proof (skip_ws_length x) as L; rewrite E in L; clear E
      end; simpl in *; lia.
Qed.

Ltac length_facts IHv IHe IHm :=
  repeat match goal with
  | E : parse_chars _ = Ok _ _ |- _ => apply parse_chars_length in E
  | E : parse_number _ = Ok _ _ |- _ => apply parse_number_length in E
  | E : parse_value _ _ = Ok _ _ |- _ => apply IHv in E
  | E : parse_elements _ _ = Ok _ _ |- _ => apply IHe in E
  | E : parse_members _ _ _ = Ok _ _ |- _ => apply IHm in E
  | E : skip_ws ?x = _ |- _ =>
      let L := fresh in pose proof (skip_ws_length x) as L; rewrite E in L; clear E
  end.

(** Twice the length of the text, and one or two more, is enough fuel. *)
Lemma parse_fuel_enough fuel :
  (∀ s, 2 * length s + 1 ≤ fuel → parse_value fuel s ≠ NoFuel)
  ∧ (∀ s, 2 * length s + 2 ≤ fuel → parse_elements fuel s ≠ NoFuel)
  ∧ (∀ o s, 2 * length s + 2 ≤ fuel → parse_members fuel o s ≠ NoFuel).
Proof.
  induction fuel as [|fuel (IHv & IHe & IHm)].
  { repeat split; intros; lia. }
  destruct (parse_progress fuel) as (Pv & Pe & Pm).
  split; [|split].
  - intros s Hb H. cbn [parse_value] in H.
    repeat break_hyp H; simplify_eq;
      try (by eapply parse_chars_fuel); try (by eapply parse_number_fuel);
      try (by eapply parse_word_fuel).
    + eapply IHe; [|eassumption]. length_facts Pv Pe Pm. simpl in *. lia.
    + eapply IHm; [|eassumption]. length_facts Pv Pe Pm. simpl in *. lia.
  - intros s Hb H. cbn [parse_elements] in H.
    repeat break_hyp H; simplify_eq.
    + eapply IHe; [|eassumption]. length_facts Pv Pe Pm. simpl in *. lia.
    + eapply IHv; [|eassumption]. lia.
  - intros o s Hb H. cbn [parse_members] in H.
    repeat break_hyp H; simplify_eq; try (by eapply parse_chars_fuel).
    + eapply IHm; [|eassumption]. length_facts Pv Pe Pm. simpl in *. lia.
    + eapply IHv; [|eassumption]. length_facts Pv Pe Pm. simpl in *. lia.
Qed.

(** One step of each of the three functions. *)
Lemma parse_value_S fuel s :
  parse_value (S fuel) s
  = ltac:(let t := eval cbn [parse_value] in (parse_value (S fuel) s) in exact t).
Proof. reflexivity. Qed.

Lemma parse_elements_S fuel s :
  parse_elements (S fuel) s
  = ltac:(let t := eval cbn [parse_elements] in (parse_elements (S fuel) s) in
          exact t).
Proof. reflexivity. Qed.

Lemma parse_members_S fuel o s :
  parse_members (S fuel) o s
  = ltac:(let t := eval cbn [parse_members] in (parse_members (S fuel) o s) in
          exact t).
Proof. reflexivity. Qed.

(** More fuel does not change a result that was reached. *)
Ltac more_fuel IHv IHe IHm :=
  repeat first
    [ match goal with
      | |- context [parse_value (S ?f) ?x] =>
          destruct (IHv x) as [-> | ->]
      | |- context [parse_elements (S ?f) ?x] =>
          destruct (IHe x) as [-> | ->]
      | |- context [parse_members (S ?f) ?o ?x] =>
          destruct (IHm o x) as [-> | ->]
      end
    | progress cbv beta iota
    | break_goal ];
  auto.

Lemma parse_fuel_step fuel :
  (∀ s, parse_value fuel s = NoFuel
        ∨ parse_value (S fuel) s = parse_value fuel s)
  ∧ (∀ s, parse_elements fuel s = NoFuel
          ∨ parse_elements (S fuel) s = parse_elements fuel s)
  ∧ (∀ o s, parse_members fuel o s = NoFuel
            ∨ parse_members (S fuel) o s = parse_members fuel o s).
Proof.
  induction fuel as [|fuel (IHv & IHe & IHm)]; [by repeat split; left|].
  split; [|split].
  - intros s. rewrite (parse_value_S (S fuel)), (parse_value_S fuel).
    more_fuel IHv IHe IHm.
  - intros s. rewrite (parse_elements_S (S fuel)), (parse_elements_S fuel).
    more_fuel IHv IHe IHm.
  - intros o s. rewrite (parse_members_S (S fuel)), (parse_members_S fuel).
    more_fuel IHv IHe IHm.
Qed.

Lemma parse_value_more_fuel fuel fuel' s :
  fuel ≤ fuel' → parse_value fuel s ≠ NoFuel →
  parse_value fuel' s = parse_value fuel s.
Proof.
  induction 1 as [|fuel' _ IH]; [done|]. intros H.
  destruct (proj1 (parse_fuel_step fuel') s) as [E|E].
  - rewrite IH in E by done. done.
  - rewrite E. by apply IH.
Qed.

(** [JSON.parse] decides: the fuel it gives to [parse_value] is
    enough. *)
Lemma JSON_parse_fuel s : parse_value (parse_fuel s) s ≠ NoFuel.
Proof. apply parse_fuel_enough. unfold parse_fuel. lia. Qed.

Lemma JSON_parse_value fuel s v rest :
  parse_value fuel s = Ok v rest → skip_ws rest = [] → JSON_parse s = Normal v.
Proof.
  intros H Hr. unfold JSON_parse.
  assert (parse_value (parse_fuel s) s = Ok v rest) as ->; [|by rewrite Hr].
  destruct (Nat.le_ge_cases fuel (parse_fuel s)).
  - rewrite (parse_value_more_fuel fuel) by (done || congruence). done.
  - rewrite <- (parse_value_more_fuel (parse_fuel s) fuel); [done..|].
    apply JSON_parse_fuel.
Qed.

(** Induction on serialized values, through the lists they hold. *)
Lemma jsvalue_nested_ind (P : jsvalue → Prop) :
  (∀ b, P (VBool b)) → (∀ s, P (VStr s)) →
  (∀ l, Forall P l → P (VArr l)) →
  (∀ fields, Forall (λ kv, P (snd kv)) fields → P (VObj fields)) →
  ∀ v, P v.
Proof.
  intros Hb Hs Ha Ho.
  fix IH 1. intros [b|s|l|fields].
  - apply Hb.
  - apply Hs.
  - apply Ha. induction l as [|v l IHl]; constructor; [apply IH|apply IHl].
  - apply Ho. induction fields as [|[k v] fields IHl]; constructor;
      [apply IH|apply IHl].
Qed.

(** Decides the comparisons between two known code units. *)
Ltac known_tests :=
  repeat match goal with
  | |- context [(?a =? ?b)%N] =>
      let r := eval vm_compute in (a =? b)%N in
      lazymatch r with
      | true => change (a =? b)%N with true
      | false => change (a =? b)%N with false
      end
  | |- context [is_json_ws ?a] =>
      let r := eval vm_compute in (is_json_ws a) in
      lazymatch r with
      | true => change (is_json_ws a) with true
      | false => change (is_json_ws a) with false
      end
  end; cbv beta iota.

Lemma strip_prefix_app w rest : strip_prefix w (w ++ rest) = Some rest.
Proof. induction w as [|a w IH]; [done|]. simpl. by rewrite N.eqb_refl. Qed.

Lemma stringify_head v :
  ∃ c t, JSON_stringify v = c :: t ∧ Spec.opens_value c.
Proof.
  unfold Spec.opens_value. destruct v as [[|]|s|l|fields]; simpl; eauto 10.
Qed.

Lemma skip_ws_opens c t : Spec.opens_value c → skip_ws (c :: t) = c :: t.
Proof. intros [->|[->|[->|[->| ->]]]]; reflexivity. Qed.

Lemma parse_elements_join v l rest :
  Forall Spec.parses_back (v :: l) →
  ∃ f0, ∀ f, f0 ≤ f →
    parse_elements f (join_comma (map JSON_stringify (v :: l)) ++ ch "]" :: rest)
    = Ok (map Spec.to_json (v :: l)) rest.
Proof.
  revert v. induction l as [|w l IH]; intros v Hf.
  - inversion Hf as [|? ? Hv _]; subst.
    destruct (Hv (ch "]" :: rest)) as [f0 H0].
    exists (S f0). intros [|f] Hle; [lia|].
    rewrite parse_elements_S. simpl map. cbn [join_comma].
    rewrite H0 by lia. cbn [skip_ws is_json_ws]. known_tests. reflexivity.
  - inversion Hf as [|? ? Hv Hl]; subst.
    destruct (IH w Hl) as [f1 H1].
    change (join_comma (map JSON_stringify (v :: w :: l)))
      with (JSON_stringify v ++ ch "," :: join_comma (map JSON_stringify (w :: l))).
    rewrite <- app_assoc. cbn [app].
    destruct (Hv (ch "," :: join_comma (map JSON_stringify (w :: l)) ++ ch "]" :: rest))
      as [f0 H0].
    exists (S (f0 `max` f1)). intros [|f] Hle; [lia|].
    rewrite parse_elements_S, H0 by lia. cbn [skip_ws is_json_ws]. known_tests.
    rewrite H1 by lia. reflexivity.
Qed.

Lemma parse_members_join o kv fields rest :
  Forall (λ kv, Spec.parses_back (snd kv)) (kv :: fields) →
  ∃ f0, ∀ f, f0 ≤ f →
    parse_members f o (join_comma (map Spec.field_text (kv :: fields)) ++ ch "}" :: rest)
    = Ok (foldl (fun o kv => <[ fst kv := Spec.to_json (snd kv) ]> o) o (kv :: fields)) rest.
Proof.
  revert o kv. induction fields as [|kw fields IH]; intros o [k v] Hf.
  - inversion Hf as [|? ? Hv _]; subst. simpl in Hv.
    destruct (Hv (ch "}" :: rest)) as [f0 H0].
    exists (S f0). intros [|f] Hle; [lia|].
    rewrite parse_members_S. simpl map. cbn [join_comma]. unfold Spec.field_text, quote.
    cbn [fst snd app]. cbn [skip_ws is_json_ws]. known_tests.
    rewrite <- ?app_assoc. cbn [app]. rewrite <- ?app_assoc. cbn [app].
    rewrite parse_chars_quote_chars. cbn [skip_ws is_json_ws]. known_tests.
    rewrite H0 by lia. cbn [skip_ws is_json_ws]. known_tests. reflexivity.
  - inversion Hf as [|? ? Hv Hl]; subst. simpl in Hv.
    change (join_comma (map Spec.field_text ((k, v) :: kw :: fields)))
      with (Spec.field_text (k, v) ++ ch "," :: join_comma (map Spec.field_text (kw :: fields))).
    destruct (Hv (ch "," :: join_comma (map Spec.field_text (kw :: fields)) ++ ch "}" :: rest))
      as [f0 H0].
    destruct (IH (<[k := Spec.to_json v]> o) kw Hl) as [f1 H1].
    exists (S (f0 `max` f1)). intros [|f] Hle; [lia|].
    rewrite parse_members_S. unfold Spec.field_text at 1, quote.
    cbn [fst snd app]. cbn [skip_ws is_json_ws]. known_tests.
    rewrite <- ?app_assoc. cbn [app]. rewrite <- ?app_assoc. cbn [app].
    rewrite parse_chars_quote_chars. cbn [skip_ws is_json_ws]. known_tests.
    rewrite H0 by lia. cbn [skip_ws is_json_ws]. known_tests.
    rewrite H1 by lia. reflexivity.
Qed.

Lemma parse_stringify v : Spec.parses_back v.
Proof.
  induction v as [b|s|l IH|fields IH] using jsvalue_nested_ind; intros rest.
  - exists 1. intros [|f] Hle; [lia|]. rewrite parse_value_S.
    destruct b; cbn [JSON_stringify].
    + change (js "true" ++ rest) with (ch "t" :: js "rue" ++ rest).
      cbn [skip_ws]. known_tests. unfold parse_word.
      change (ch "t" :: js "rue" ++ rest) with (js "true" ++ rest).
      by rewrite strip_prefix_app.
    + change (js "false" ++ rest) with (ch "f" :: js "alse" ++ rest).
      cbn [skip_ws]. known_tests. unfold parse_word.
      change (ch "f" :: js "alse" ++ rest) with (js "false" ++ rest).
      by rewrite strip_prefix_app.
  - exists 1. intros [|f] Hle; [lia|]. rewrite parse_value_S.
    cbn [JSON_stringify]. unfold quote. cbn [app skip_ws is_json_ws]. known_tests.
    rewrite <- app_assoc. cbn [app]. by rewrite parse_chars_quote_chars.
  - destruct l as [|v l].
    + exists 1. intros [|f] Hle; [lia|]. rewrite parse_value_S.
      cbn [JSON_stringify map join_comma app skip_ws is_json_ws]. known_tests.
      cbn [skip_ws is_json_ws]. known_tests. reflexivity.
    + destruct (parse_elements_join v l rest IH) as [f0 H0].
      exists (S f0). intros [|f] Hle; [lia|]. rewrite parse_value_S.
      cbn [JSON_stringify]. cbn [app skip_ws is_json_ws]. known_tests.
      rewrite <- app_assoc. cbn [app].
      destruct (stringify_head v) as (c & t & Hc & Ho).
      assert (∃ c' t', join_comma (map JSON_stringify (v :: l)) = c' :: t'
                       ∧ Spec.opens_value c') as (c' & t' & Hj & Ho').
      { destruct l; cbn [map join_comma]; rewrite Hc; simpl; eauto. }
      specialize (H0 f ltac:(lia)). rewrite Hj in H0 |- *. cbn [app] in H0 |- *.
      rewrite skip_ws_opens by done.
      replace (c' =? ch "]")%N with false.
      2:{ symmetry. apply N.eqb_neq. destruct Ho' as [->|[->|[->|[->| ->]]]]; discriminate. }
      rewrite H0. reflexivity.
    - destruct fields as [|kv fields].
    + exists 1. intros [|f] Hle; [lia|]. rewrite parse_value_S.
      cbn [JSON_stringify map join_comma app skip_ws is_json_ws]. known_tests.
      cbn [skip_ws is_json_ws]. known_tests. reflexivity.
    + destruct (parse_members_join ∅ kv fields rest IH) as [f0 H0].
      exists (S f0). intros [|f] Hle; [lia|]. rewrite parse_value_S.
      cbn [JSON_stringify]. cbn [app skip_ws is_json_ws]. known_tests.
      rewrite <- app_assoc. cbn [app].
      change (map (λ kv0, quote kv0.1 ++ ch ":" :: JSON_stringify kv0.2) (kv :: fields))
        with (map Spec.field_text (kv :: fields)).
      assert (∃ t', join_comma (map Spec.field_text (kv :: fields)) = quote_mark :: t')
        as (t' & Hj).
      { destruct fields; cbn [map join_comma]; unfold Spec.field_text, quote; simpl; eauto. }
      specialize (H0 f ltac:(lia)). rewrite Hj in H0 |- *. cbn [app] in H0 |- *.
      cbn [skip_ws is_json_ws]. known_tests.
      rewrite H0. reflexivity.
Qed.

Theorem JSON_parse_stringify v : JSON_parse (JSON_stringify v) = Normal (Spec.to_json v).
Proof.
  destruct (parse_stringify v []) as [f0 H0].
  apply (JSON_parse_value f0 _ _ []); [|reflexivity].
  rewrite <- (app_nil_r (JSON_stringify v)). by apply H0.
Qed.

(* ===================================================================== *)
(** * The content codec *)
(* ===================================================================== *)

Lemma is_media_item_spec v :
  Page.is_media_item v = true ↔ ∃ o u, Spec.media_entry v o u.
Proof.
  unfold Page.is_media_item, Spec.media_entry. split.
  - rewrite !andb_true_iff, orb_true_iff. intros ((((Ht & Ho) & Hi) & Hk) & Hu).
    destruct v as [| | | | |o]; simpl in *;
      try discriminate; try (destruct (negb _); discriminate).
    exists o.
    destruct (o !! js "url") as [[| | |u| |]|] eqn:Eu; try discriminate.
    exists u. split; [done|].
    destruct (o !! js "id") as [[| | |i| |]|] eqn:Ei; try discriminate.
    split; [eauto|]. split; [|done].
    unfold is_literal in Hk.
    destruct (o !! js "kind") as [[| | |k| |]|] eqn:Ek;
      try (destruct Hk; discriminate).
    destruct Hk as [Hk|Hk]; apply bool_decide_eq_true in Hk; subst; auto.
  - intros (o & u & -> & (i & Hi) & Hk & Hu). simpl. rewrite Hi, Hu. simpl.
    destruct Hk as [-> | ->]; reflexivity.
Qed.

Lemma decoded_media_kept items :
  Spec.kept_media items
    (map Page.with_trimmed_url (filter (λ item, Page.is_media_item item = true) items)).
Proof.
  induction items as [|v items IH]; [constructor|].
  rewrite filter_cons. destruct (decide (Page.is_media_item v = true)) as [Hv|Hv].
  - apply is_media_item_spec in Hv as (o & u & Hm).
    pose proof Hm as (-> & _ & _ & Hu). simpl. rewrite Hu. simpl.
    by eapply Spec.kept_keep.
  - apply Spec.kept_drop; [|done]. intros o u Hm. apply Hv.
    apply is_media_item_spec. eauto.
Qed.

(** What is kept of a sequence is determined by the sequence. *)
Lemma kept_media_unique items out1 out2 :
  Spec.kept_media items out1 → Spec.kept_media items out2 → out1 = out2.
Proof.
  intros H1. revert out2. induction H1 as [|v o u items out Hm _ IH|v items out Hn _ IH];
    intros out2 H2; inversion H2 as [|? o' u' ? out' Hm' H'|? ? ? Hn' H']; subst.
  - done.
  - destruct Hm as (Ho & _ & _ & Hu), Hm' as (Ho' & _ & _ & Hu').
    simplify_eq. f_equal. by apply IH.
  - by destruct (Hn' o u).
  - by destruct (Hn o' u').
  - by apply IH.
Qed.

Lemma parse_structured_value raw p :
  JSON_parse raw = Normal p → Spec.structured p →
  Page.parse_structured raw
  = Normal {| Page.body := default [] (as_string (prop p (js "body")));
              Page.published := truthy (prop p (js "published"));
              Page.media :=
                match prop p (js "media") with
                | Some (JArr items) =>
                    map Page.with_trimmed_url
                      (filter (λ item, Page.is_media_item item = true) items)
                | _ => []
                end |}.
Proof.
  intros Hp Hs. unfold Page.parse_structured. rewrite Hp. simpl.
  destruct Hs as [[o ->]|[l ->]]; simpl.
  - by destruct (as_string (o !! js "body")).
  - reflexivity.
Qed.






Lemma has_url_length m :
  (0 < length (trim (Page.url m)))%nat ↔ Spec.has_url m.
Proof. unfold Spec.has_url. destruct (trim _); simpl; split; (lia || done). Qed.

Lemma filter_has_url (l : list Page.MediaItem) :
  filter (λ item, (0 < length (trim (Page.url item)))%nat) l = filter Spec.has_url l.
Proof. apply list_filter_iff. intros m. apply has_url_length. Qed.

Lemma to_json_item m : Spec.to_json (Page.item_value m) = JObj (Spec.item_object m).
Proof. reflexivity. Qed.

(** The object that the literal of [serializeContent] denotes. *)
Lemma to_json_content b p (items : list Page.MediaItem) :
  Spec.to_json
    (VObj [ (js "body", VStr b); (js "published", VBool p);
            (js "media", VArr (map Page.item_value items)) ])
  = JObj {[ js "body" := JStr b;
            js "published" := JBool p;
            js "media" := JArr (map (λ m, JObj (Spec.item_object m)) items) ]}.
Proof.
  simpl. rewrite map_map.
  rewrite (map_ext _ (λ m, JObj (Spec.item_object m))) by (intros; apply to_json_item).
  reflexivity.
Qed.

(** C9: the text that encoding gives denotes an object with exactly
    three properties: [body] and [published] as given, and [media], the
    sequence of the entries whose trimmed [url] is not empty, in their
    order, each with its [id], [kind] and [url] as given, the [url] not
    trimmed. *)
Theorem encode_fields (data : Page.Content Page.MediaItem) :
  JSON_parse (Page.serializeContent data)
  = Normal (JObj {[ js "body" := JStr (Page.body data);
                    js "published" := JBool (Page.published data);
                    js "media" :=
                      JArr (map (λ m, JObj (Spec.item_object m))
                              (filter Spec.has_url (Page.media data))) ]}).
Proof.
  unfold Page.serializeContent.
  rewrite JSON_parse_stringify, filter_has_url.
  f_equal. apply to_json_content.
Qed.

Lemma serializeContent_nonempty data : Page.serializeContent data ≠ [].
Proof. discriminate. Qed.

Lemma item_object_kept m :
  Spec.valid_kind m →
  Page.is_media_item (JObj (Spec.item_object m)) = true
  ∧ Page.with_trimmed_url (JObj (Spec.item_object m))
    = Spec.item_object {| Page.id := Page.id m; Page.kind := Page.kind m;
                          Page.url := trim (Page.url m) |}.
Proof.
  intros Hk. split.
  - apply is_media_item_spec. exists (Spec.item_object m), (Page.url m).
    split; [done|]. split; [by exists (Page.id m)|]. split; [|done].
    destruct Hk as [Hk|Hk]; [left|right]; by rewrite <- Hk.
  - reflexivity.
Qed.

Lemma decode_item_objects (l : list Page.MediaItem) :
  Forall Spec.valid_kind l →
  map Page.with_trimmed_url
    (filter (λ item, Page.is_media_item item = true)
       (map (λ m, JObj (Spec.item_object m)) l))
  = map Spec.item_object
      (map (λ m, {| Page.id := Page.id m; Page.kind := Page.kind m;
                    Page.url := trim (Page.url m) |}) l).
Proof.
  induction 1 as [|m l Hm _ IH]; [done|].
  destruct (item_object_kept m Hm) as [Hk Ht].
  cbn [map]. rewrite filter_cons_True by done. cbn [map].
  by rewrite Ht, IH.
Qed.

(** C2, as the code has it: for a record whose media entries have a
    [kind] among [image] and [video], decoding what encoding gives
    returns the record without the entries whose trimmed [url] is empty
    and with the [url] of each other entry trimmed, in the same order
    and with the same [id] and [kind]. *)
Theorem decode_encode (x : Page.Content Page.MediaItem) :
  Forall Spec.valid_kind (Page.media x) →
  Page.parsePostContent (Some (Page.serializeContent x))
  = Spec.as_parsed (Spec.with_trimmed_urls (Spec.without_empty_media x)).
Proof.
  intros Hk. unfold Page.parsePostContent.
  destruct (Page.serializeContent x) as [|c r] eqn:Hs;
    [by apply serializeContent_nonempty in Hs|].
  rewrite <- Hs.
  assert (JSON_parse (Page.serializeContent x)
          = Normal (JObj {[ js "body" := JStr (Page.body x);
                            js "published" := JBool (Page.published x);
                            js "media" :=
                              JArr (map (λ m, JObj (Spec.item_object m))
                                      (filter Spec.has_url (Page.media x))) ]}))
    as Hp.
  { unfold Page.serializeContent.
    rewrite JSON_parse_stringify, filter_has_url.
    f_equal. apply to_json_content. }
  rewrite (parse_structured_value _ _ Hp) by (left; eauto).
  unfold Spec.as_parsed, Spec.with_trimmed_urls, Spec.without_empty_media. simpl.
  f_equal. apply decode_item_objects.
  rewrite Forall_forall in Hk |- *. intros m Hm.
  apply list_elem_of_filter in Hm as [_ Hm]. by apply Hk.
Qed.

Lemma decode_encode_witness :
  Page.parsePostContent
    (Some (Page.serializeContent
             {| Page.body := js "hi"; Page.published := true;
                Page.media := [ {| Page.id := js "a"; Page.kind := js "image";
                                   Page.url := js " u " |};
                                {| Page.id := js "b"; Page.kind := js "video";
                                   Page.url := js "  " |} ] |}))
  = {| Page.body := js "hi"; Page.published := true;
       Page.media := [ {[ js "id" := JStr (js "a"); js "kind" := JStr (js "image");
                          js "url" := JStr (js "u") ]} ] |}.
Proof.
  apply (decode_encode
           {| Page.body := js "hi"; Page.published := true;
              Page.media := [ {| Page.id := js "a"; Page.kind := js "image";
                                 Page.url := js " u " |};
                              {| Page.id := js "b"; Page.kind := js "video";
                                 Page.url := js "  " |} ] |}).
  constructor; [left; reflexivity|].
  constructor; [right; reflexivity|constructor].
Defined.

(** C2, as the claim has it, fails on an entry whose [url] has spaces
    around it: the entry is kept with its [url] as given by encoding and
    comes back trimmed from decoding, so the result is not the record
    given. *)
Lemma decode_encode_counterexample :
  let x := {| Page.body := js "hi"; Page.published := true;
              Page.media := [ {| Page.id := js "a"; Page.kind := js "image";
                                 Page.url := js " u " |} ] |} in
  Forall (λ m, Spec.valid_kind m ∧ Page.id m ≠ []) (Page.media x)
  ∧ Page.parsePostContent (Some (Page.serializeContent x))
    ≠ Spec.as_parsed (Spec.without_empty_media x).
Proof.
  split.
  - repeat constructor. discriminate.
  - intros H.
    apply (f_equal (λ c, match Page.media c with
                         | o :: _ => o !! js "url"
                         | [] => None
                         end)) in H.
    vm_compute in H. discriminate.
Qed.

(* ===================================================================== *)
(** * Trimming *)
(* ===================================================================== *)

Lemma trim_start_fixed s :
  match s with [] => True | c :: _ => is_white_space c = false end →
  trim_start s = s.
Proof. destruct s as [|c r]; [done|]. simpl. by intros ->. Qed.

Lemma trim_start_head s :
  match trim_start s with [] => True | c :: _ => is_white_space c = false end.
Proof.
  induction s as [|c r IH]; [done|]. simpl.
  destruct (is_white_space c) eqn:E; [done|]. simpl. done.
Qed.

Lemma trim_start_snoc l x :
  is_white_space x = false → ∃ l', trim_start (l ++ [x]) = l' ++ [x].
Proof.
  intros Hx. induction l as [|c l IH]; simpl.
  - rewrite Hx. by exists [].
  - destruct (is_white_space c); [done|]. by exists (c :: l).
Qed.

Lemma trim_end_head c r :
  is_white_space c = false → ∃ r', trim_end (c :: r) = c :: r'.
Proof.
  intros Hc. unfold trim_end. rewrite reverse_cons.
  destruct (trim_start_snoc (reverse r) c Hc) as [l' ->].
  rewrite reverse_app. simpl. eauto.
Qed.

Lemma trim_end_idempotent s : trim_end (trim_end s) = trim_end s.
Proof.
  unfold trim_end. rewrite reverse_involutive.
  rewrite (trim_start_fixed (trim_start _)); [done|apply trim_start_head].
Qed.

Lemma trim_start_trim_end s :
  match s with [] => True | c :: _ => is_white_space c = false end →
  trim_start (trim_end s) = trim_end s.
Proof.
  destruct s as [|c r]; [done|]. intros Hc.
  destruct (trim_end_head c r Hc) as [r' ->]. simpl. by rewrite Hc.
Qed.

Lemma trim_idempotent s : trim (trim s) = trim s.
Proof.
  unfold trim. rewrite trim_start_trim_end by apply trim_start_head.
  apply trim_end_idempotent.
Qed.

(* ===================================================================== *)
(** * More on the validators *)
(* ===================================================================== *)

(** The create-payload validator, by cases on what it finds. *)
Lemma create_cases p :
  (∃ m, Posts.validateCreatePostPayload p = Posts.invalid m)
  ∨ (∃ t u, Spec.structured p
            ∧ prop p (js "title") = Some (JStr t) ∧ trim t ≠ []
            ∧ prop p (js "profile_id") = Some (JStr u) ∧ Posts.isUuid u = true
            ∧ Spec.content_ok p
            ∧ Posts.validateCreatePostPayload p
              = {| Posts.valid := true;
                   Posts.data :=
                     Some {| Posts.title := trim t;
                             Posts.content := as_string (prop p (js "content"));
                             Posts.profile_id := u |};
                   Posts.error := None |}).
Proof.
  unfold Posts.validateCreatePostPayload.
  destruct (negb (truthy (Some p)) || negb (is_object (Some p))) eqn:Hg; [eauto|].
  apply structured_guard in Hg.
  destruct (prop p (js "title")) as [[| | |t| |]|] eqn:Et; simpl; eauto.
  destruct (length (trim t) =? 0)%nat eqn:El; [eauto|].
  assert (trim t ≠ []) by (intros E; rewrite E in El; done).
  destruct (prop p (js "profile_id")) as [[| | |u| |]|] eqn:Eu; simpl; eauto.
  destruct (Posts.isUuid u) eqn:Ev; simpl; [|eauto].
  unfold Spec.content_ok.
  destruct (prop p (js "content")) as [[| | |c| |]|] eqn:Ec; simpl; eauto;
    right; exists t, u; rewrite ?Ec; eauto 10.
Qed.

(** Both validators give a payload exactly when they say [valid], and a
    message exactly when they do not: the test [!valid || !data] of the
    handlers is [!valid]. *)
Theorem validation_shape (p : json) :
  (Posts.valid (Posts.validateCreatePostPayload p) = true
   ∧ is_Some (Posts.data (Posts.validateCreatePostPayload p))
   ∧ Posts.error (Posts.validateCreatePostPayload p) = None
   ∨ Posts.valid (Posts.validateCreatePostPayload p) = false
     ∧ Posts.data (Posts.validateCreatePostPayload p) = None
     ∧ is_Some (Posts.error (Posts.validateCreatePostPayload p)))
  ∧ (PostById.valid (PostById.validateUpdatePayload p) = true
     ∧ is_Some (PostById.data (PostById.validateUpdatePayload p))
     ∧ PostById.error (PostById.validateUpdatePayload p) = None
     ∨ PostById.valid (PostById.validateUpdatePayload p) = false
       ∧ PostById.data (PostById.validateUpdatePayload p) = None
       ∧ is_Some (PostById.error (PostById.validateUpdatePayload p))).
Proof.
  split.
  - destruct (create_cases p) as [[m ->]|(t & u & _ & _ & _ & _ & _ & _ & ->)];
      [right|left]; simpl; eauto.
  - destruct (update_result_shape p) as [[u ->]|[m ->]]; [left|right]; simpl; eauto.
Qed.

(** Validating again what the create-payload validator returned changes
    nothing: its payload is normalized. *)
Theorem create_normalized (p : json) (d : Posts.CreatePostPayload) :
  Posts.data (Posts.validateCreatePostPayload p) = Some d →
  Posts.validateCreatePostPayload (JObj (Posts.payload_object d))
  = {| Posts.valid := true; Posts.data := Some d; Posts.error := None |}.
Proof.
  intros Hd.
  destruct (create_cases p) as [[m E]|(t & u & _ & _ & Ht & _ & Hu & _ & E)];
    rewrite E in Hd; [discriminate|]. injection Hd as <-.
  unfold Posts.validateCreatePostPayload, Posts.payload_object. simpl.
  rewrite lookup_insert_eq. simpl. rewrite trim_idempotent.
  destruct (length (trim t) =? 0)%nat eqn:El; [by apply length_eqb_nil in El|].
  rewrite lookup_insert_ne, lookup_insert_ne, lookup_singleton_eq by done.
  simpl. rewrite Hu. simpl.
  rewrite lookup_insert_ne, lookup_insert_eq by done.
  by destruct (as_string (prop p (js "content"))).
Qed.

Lemma create_normalized_witness :
  Posts.validateCreatePostPayload
    (JObj {[ js "title" := JStr (js "T"); js "content" := JNull;
             js "profile_id" := JStr (js "123e4567-e89b-12d3-a456-426614174000") ]})
  = {| Posts.valid := true;
       Posts.data := Some {| Posts.title := js "T"; Posts.content := None;
                             Posts.profile_id :=
                               js "123e4567-e89b-12d3-a456-426614174000" |};
       Posts.error := None |}.
Proof.
  apply (create_normalized
           (JObj {[ js "title" := JStr (js " T ");
                    js "profile_id" :=
                      JStr (js "123e4567-e89b-12d3-a456-426614174000") ]})
           {| Posts.title := js "T"; Posts.content := None;
              Posts.profile_id := js "123e4567-e89b-12d3-a456-426614174000" |}).
  vm_compute. reflexivity.
Defined.

(** The validators read [title], [profile_id] and [content] and nothing
    else: two objects that agree on them are validated alike, whatever
    other fields they have. *)
Theorem validators_read_their_fields (o1 o2 : gmap jsstring json) :
  o1 !! js "title" = o2 !! js "title" →
  o1 !! js "content" = o2 !! js "content" →
  (o1 !! js "profile_id" = o2 !! js "profile_id" →
   Posts.validateCreatePostPayload (JObj o1)
   = Posts.validateCreatePostPayload (JObj o2))
  ∧ PostById.validateUpdatePayload (JObj o1)
    = PostById.validateUpdatePayload (JObj o2).
Proof.
  intros Ht Hc. split.
  - intros Hp. unfold Posts.validateCreatePostPayload. simpl.
    by rewrite Ht, Hc, Hp.
  - unfold PostById.validateUpdatePayload. simpl. by rewrite Ht, Hc.
Qed.

Lemma validators_read_their_fields_witness :
  PostById.validateUpdatePayload
    (JObj {[ js "title" := JStr (js "T"); js "id" := JStr (js "7") ]})
  = PostById.validateUpdatePayload (JObj {[ js "title" := JStr (js "T") ]}).
Proof.
  apply (validators_read_their_fields
           {[ js "title" := JStr (js "T"); js "id" := JStr (js "7") ]}
           {[ js "title" := JStr (js "T") ]}); reflexivity.
Defined.

(** A body that the create-payload validator accepts is accepted by the
    update-payload validator, with the same title, and with the same
    content when the body has one. *)
Theorem create_valid_update_valid (p : json) (d : Posts.CreatePostPayload) :
  Posts.data (Posts.validateCreatePostPayload p) = Some d →
  ∃ u, PostById.validateUpdatePayload p
       = {| PostById.valid := true; PostById.data := Some u;
            PostById.error := None |}
     ∧ u !! js "title" = Some (JStr (Posts.title d))
     ∧ (∀ c, Posts.content d = Some c → u !! js "content" = Some (JStr c))
     ∧ u !! js "profile_id" = None.
Proof.
  intros Hd.
  destruct (create_cases p) as [[m E]|(t & u & Hs & Ht & Hne & _ & _ & Hc & E)];
    rewrite E in Hd; [discriminate|]. injection Hd as <-. simpl.
  exists (Spec.expected_update p). split; [|split; [|split]].
  - apply update_success. split; [done|]. split; [left; congruence|].
    split; [right; exists t; done|]. split; done.
  - rewrite expected_update_title, Ht. done.
  - intros c Hc'. rewrite expected_update_content.
    destruct (prop p (js "content")) as [[]|]; simpl in Hc'; congruence.
  - by apply expected_update_other.
Qed.

Lemma create_valid_update_valid_witness :
  ∃ u, PostById.validateUpdatePayload
         (JObj {[ js "title" := JStr (js " T ");
                  js "profile_id" :=
                    JStr (js "123e4567-e89b-12d3-a456-426614174000") ]})
       = {| PostById.valid := true; PostById.data := Some u;
            PostById.error := None |}
     ∧ u !! js "title" = Some (JStr (js "T")).
Proof.
  destruct (create_valid_update_valid
              (JObj {[ js "title" := JStr (js " T ");
                       js "profile_id" :=
                         JStr (js "123e4567-e89b-12d3-a456-426614174000") ]})
              {| Posts.title := js "T"; Posts.content := None;
                 Posts.profile_id := js "123e4567-e89b-12d3-a456-426614174000" |})
    as (u & E & Ht & _).
  - vm_compute. reflexivity.
  - exists u. split; [exact E|exact Ht].
Defined.

(* ===================================================================== *)
(** * More on the handlers *)
(* ===================================================================== *)

(** What follows a query in the three handlers with an identifier. *)
Lemma run_found w (r : PostgrestResponse) (ok : response) :
  run w match Next.error r with
        | Some e => Respond (PostById.server_error e)
        | None => if negb (truthy (Some (Next.data r)))
                  then Respond PostById.not_found else Respond ok
        end
  = (match Next.error r with
     | Some e => PostById.server_error e
     | None => if truthy (Some (Next.data r)) then ok else PostById.not_found
     end, []).
Proof. destruct (Next.error r); [done|]. by destruct (truthy _). Qed.

(** The five handlers are frugal: a run sends at most one query; the
    list, read-one and delete handlers never read the body of the
    request; the create and update handlers read it once, before their
    query. *)
Theorem handler_traces (w : world) (id : jsstring) :
  let bodiless t := t = [] ∨ ∃ q a, t = [Queried q a] in
  let with_body t :=
    t = [] ∨ t = [ReadBody] ∨ ∃ q a, t = [ReadBody; Queried q a] in
  bodiless (run w Posts.GET).2
  ∧ with_body (run w Posts.POST).2
  ∧ bodiless (run w (PostById.GET id)).2
  ∧ with_body (run w (PostById.PUT id)).2
  ∧ bodiless (run w (PostById.DELETE id)).2.
Proof.
  cbv zeta. split; [|split; [|split; [|split]]].
  - right. unfold Posts.GET. rewrite run_await.
    destruct (Next.error _); simpl; eauto.
  - unfold Posts.POST. rewrite run_request.
    destruct (request_json w) as [p|e]; [|by right; left].
    cbv beta iota zeta.
    destruct (negb _), (Posts.data (Posts.validateCreatePostPayload p));
      try (by right; left).
    right. right. rewrite run_await. destruct (Next.error _); simpl; eauto.
  - unfold PostById.GET. destruct (negb _); [by left|].
    right. rewrite run_await, run_found. simpl. eauto.
  - unfold PostById.PUT. destruct (negb _); [by left|].
    rewrite run_request. destruct (request_json w) as [p|e]; [|by right; left].
    cbv beta iota zeta.
    destruct (negb _), (PostById.data (PostById.validateUpdatePayload p));
      try (by right; left).
    right. right. rewrite run_await, run_found. simpl. eauto.
  - unfold PostById.DELETE. destruct (negb _); [by left|].
    right. rewrite run_await, run_found. simpl. eauto.
Qed.

Lemma create_invalid_message p :
  Posts.valid (Posts.validateCreatePostPayload p) = false →
  ∃ m, Posts.validateCreatePostPayload p = Posts.invalid m.
Proof.
  intros H.
  destruct (create_cases p) as [[m E]|(t & u & _ & _ & _ & _ & _ & _ & E)]; [eauto|].
  rewrite E in H. discriminate.
Qed.

(** The create handler rejects before it stores: a body that is not JSON
    gives 400 with [Invalid JSON body.], a body that the validator
    refuses gives 400 with the message of the validator, and in both
    cases no query is sent. *)
Theorem create_rejections (w : world) :
  (∀ e, request_json w = Throw e →
     run w Posts.POST
     = ({| status := 400;
           payload := Some (JObj {[ js "error" := JStr (js "Invalid JSON body.") ]}) |},
        [ReadBody]))
  ∧ (∀ p, request_json w = Normal p →
       Posts.valid (Posts.validateCreatePostPayload p) = false →
       ∃ m, Posts.error (Posts.validateCreatePostPayload p) = Some m
            ∧ run w Posts.POST
              = ({| status := 400;
                    payload := Some (JObj {[ js "error" := JStr m ]}) |},
                 [ReadBody])).
Proof.
  split.
  - intros e He. unfold Posts.POST. rewrite run_request, He. reflexivity.
  - intros p Hp Hv. destruct (create_invalid_message p Hv) as [m Hm].
    exists m. rewrite Hm. split; [done|].
    unfold Posts.POST. rewrite run_request, Hp. cbv beta iota zeta.
    rewrite Hm. reflexivity.
Qed.

Lemma create_rejections_witness :
  run Example.failing_world Posts.POST
  = ({| status := 400;
        payload := Some (JObj {[ js "error" := JStr (js "Invalid JSON body.") ]}) |},
     [ReadBody]).
Proof.
  apply (proj1 (create_rejections Example.failing_world) SyntaxError).
  reflexivity.
Defined.

(** The create handler stores what the validator returned and nothing
    else: when the validator accepts the body, the one query of the run
    inserts a row with exactly the properties [title], [content] and
    [profile_id], the title trimmed; the answer is 201 with the row of
    the backend, or 500 with its message. *)
Theorem create_inserts (w : world) (p : json) (d : Posts.CreatePostPayload) :
  request_json w = Normal p →
  Posts.data (Posts.validateCreatePostPayload p) = Some d →
  let q := InsertPost (Posts.payload_object d) in
  (run w Posts.POST).2 = [ReadBody; Queried q (backend w q)]
  ∧ dom (Posts.payload_object d)
    = {[ js "title"; js "content"; js "profile_id" ]}
  ∧ Posts.payload_object d !! js "title" = Some (JStr (Posts.title d))
  ∧ trim (Posts.title d) = Posts.title d
  ∧ (run w Posts.POST).1
    = match Next.error (backend w q) with
      | Some e => {| status := 500;
                     payload := Some (JObj {[ js "error" := JStr (message e) ]}) |}
      | None => {| status := 201;
                   payload := Some (JObj {[ js "data" := Next.data (backend w q) ]}) |}
      end.
Proof.
  intros Hp Hd q.
  assert (Posts.validateCreatePostPayload p
          = {| Posts.valid := true; Posts.data := Some d; Posts.error := None |}
          ∧ trim (Posts.title d) = Posts.title d) as [E Ht].
  { destruct (create_cases p) as [[m E]|(t & u & _ & _ & _ & _ & _ & _ & E)];
      rewrite E in Hd |- *; [discriminate|]. injection Hd as <-.
    split; [done|]. apply trim_idempotent. }
  assert (run w Posts.POST
          = ((run w match Next.error (backend w q) with
                    | Some e => Respond (json_response
                                  (field (js "error") (Some (JStr (message e)))) 500)
                    | None => Respond (json_response
                                  (field (js "data") (Some (Next.data (backend w q)))) 201)
                    end).1,
             [ReadBody; Queried q (backend w q)])) as Hrun.
  { unfold Posts.POST. rewrite run_request, Hp. cbv beta iota zeta.
    rewrite E. cbn [Posts.valid Posts.data negb]. rewrite run_await.
    fold q. by destruct (Next.error (backend w q)). }
  rewrite Hrun. split; [done|]. split.
  - unfold Posts.payload_object. rewrite !dom_insert_L, dom_singleton_L. set_solver.
  - split; [by unfold Posts.payload_object; rewrite lookup_insert_eq|].
    split; [done|]. by destruct (Next.error (backend w q)).
Qed.

Lemma create_inserts_witness :
  (run Example.put_world Posts.POST).2
  = [ReadBody;
     Queried (InsertPost
                {[ js "title" := JStr (js "New"); js "content" := JNull;
                   js "profile_id" :=
                     JStr (js "00000000-0000-4000-8000-000000000002") ]})
             {| Next.data := JNull; Next.error := None |}].
Proof.
  apply (create_inserts Example.put_world
           (JObj {[ js "title" := JStr (js "New");
                    js "profile_id" :=
                      JStr (js "00000000-0000-4000-8000-000000000002") ]})
           {| Posts.title := js "New"; Posts.content := None;
              Posts.profile_id := js "00000000-0000-4000-8000-000000000002" |}).
  - reflexivity.
  - vm_compute. reflexivity.
Defined.

Lemma update_invalid_message p :
  PostById.valid (PostById.validateUpdatePayload p) = false →
  ∃ m, PostById.validateUpdatePayload p = PostById.invalid m.
Proof.
  intros H. destruct (update_result_shape p) as [[u E]|[m E]]; [|eauto].
  rewrite E in H. discriminate.
Qed.

(** The update handler checks in a fixed order and rejects before it
    stores: with a valid identifier, a body that is not JSON gives 400
    with [Invalid JSON body.] and a body that the validator refuses gives
    400 with the message of the validator; no query is sent. *)
Theorem update_rejections (w : world) (id : jsstring) :
  PostById.isUuid id = true →
  (∀ e, request_json w = Throw e →
     run w (PostById.PUT id)
     = ({| status := 400;
           payload := Some (JObj {[ js "error" := JStr (js "Invalid JSON body.") ]}) |},
        [ReadBody]))
  ∧ (∀ p, request_json w = Normal p →
       PostById.valid (PostById.validateUpdatePayload p) = false →
       ∃ m, PostById.error (PostById.validateUpdatePayload p) = Some m
            ∧ run w (PostById.PUT id)
              = ({| status := 400;
                    payload := Some (JObj {[ js "error" := JStr m ]}) |},
                 [ReadBody])).
Proof.
  intros Hid. unfold PostById.PUT. rewrite Hid. cbn [negb]. split.
  - intros e He. rewrite run_request, He. reflexivity.
  - intros p Hp Hv. destruct (update_invalid_message p Hv) as [m Hm].
    exists m. rewrite Hm. split; [done|].
    rewrite run_request, Hp. cbv beta iota zeta. rewrite Hm. reflexivity.
Qed.

Lemma update_rejections_witness :
  run Example.failing_world (PostById.PUT (js "123e4567-e89b-12d3-a456-426614174000"))
  = ({| status := 400;
        payload := Some (JObj {[ js "error" := JStr (js "Invalid JSON body.") ]}) |},
     [ReadBody]).
Proof.
  apply (proj1 (update_rejections Example.failing_world
                  (js "123e4567-e89b-12d3-a456-426614174000")
                  ltac:(vm_compute; reflexivity)) SyntaxError).
  reflexivity.
Defined.

(** The update handler writes what the validator returned, against the
    post of the path: with a valid identifier and a body that the
    validator accepts, the one query of the run is the update of that
    post with the record of the validator, and the answer is 500 with
    the message of the backend, 404 when no row comes back, 200 with the
    row otherwise. *)
Theorem update_writes (w : world) (id : jsstring) (p : json)
    (u : gmap jsstring json) :
  PostById.isUuid id = true →
  request_json w = Normal p →
  PostById.data (PostById.validateUpdatePayload p) = Some u →
  let a := backend w (UpdatePost u id) in
  run w (PostById.PUT id)
  = (match Next.error a with
     | Some e => {| status := 500;
                    payload := Some (JObj {[ js "error" := JStr (message e) ]}) |}
     | None =>
         if truthy (Some (Next.data a))
         then {| status := 200;
                 payload := Some (JObj {[ js "data" := Next.data a ]}) |}
         else {| status := 404;
                 payload := Some (JObj {[ js "error" := JStr (js "Post not found.") ]}) |}
     end,
     [ReadBody; Queried (UpdatePost u id) a]).
Proof.
  intros Hid Hp Hd a. apply update_data_expected in Hd.
  unfold PostById.PUT. rewrite Hid. cbn [negb].
  rewrite run_request, Hp. cbv beta iota zeta. rewrite Hd.
  cbn [PostById.valid PostById.data negb]. rewrite run_await, run_found.
  fold a. by destruct (Next.error a).
Qed.

Lemma update_writes_witness :
  run Example.put_world (PostById.PUT (js "123e4567-e89b-12d3-a456-426614174000"))
  = ({| status := 404;
        payload := Some (JObj {[ js "error" := JStr (js "Post not found.") ]}) |},
     [ReadBody;
      Queried (UpdatePost {[ js "title" := JStr (js "New") ]}
                 (js "123e4567-e89b-12d3-a456-426614174000"))
              {| Next.data := JNull; Next.error := None |}]).
Proof.
  apply (update_writes Example.put_world
           (js "123e4567-e89b-12d3-a456-426614174000")
           (JObj {[ js "title" := JStr (js "New");
                    js "profile_id" :=
                      JStr (js "00000000-0000-4000-8000-000000000002") ]})
           {[ js "title" := JStr (js "New") ]}).
  - vm_compute. reflexivity.
  - reflexivity.
  - vm_compute. reflexivity.
Defined.

(** Reading and deleting one post: with a valid identifier the one query
    of the run is about that post; the answer is 500 with the message of
    the backend, 404 with [Post not found.] when the backend has no row,
    and otherwise 200 with the row for a read and 204 with an empty body
    for a delete. *)
Theorem read_and_delete_outcomes (w : world) (id : jsstring) :
  PostById.isUuid id = true →
  let outcome (a : PostgrestResponse) (found : response) :=
    match Next.error a with
    | Some e => {| status := 500;
                   payload := Some (JObj {[ js "error" := JStr (message e) ]}) |}
    | None =>
        if truthy (Some (Next.data a)) then found
        else {| status := 404;
                payload := Some (JObj {[ js "error" := JStr (js "Post not found.") ]}) |}
    end in
  run w (PostById.GET id)
  = (outcome (backend w (SelectPost id))
       {| status := 200;
          payload := Some (JObj {[ js "data" := Next.data (backend w (SelectPost id)) ]}) |},
     [Queried (SelectPost id) (backend w (SelectPost id))])
  ∧ run w (PostById.DELETE id)
    = (outcome (backend w (DeletePost id)) {| status := 204; payload := None |},
       [Queried (DeletePost id) (backend w (DeletePost id))]).
Proof.
  intros Hid. cbv zeta. unfold PostById.GET, PostById.DELETE.
  rewrite Hid. cbn [negb]. rewrite !run_await, !run_found. split.
  - by destruct (Next.error (backend w (SelectPost id))).
  - by destruct (Next.error (backend w (DeletePost id))).
Qed.

Lemma read_and_delete_outcomes_witness :
  run Example.put_world (PostById.DELETE (js "123e4567-e89b-12d3-a456-426614174000"))
  = ({| status := 404;
        payload := Some (JObj {[ js "error" := JStr (js "Post not found.") ]}) |},
     [Queried (DeletePost (js "123e4567-e89b-12d3-a456-426614174000"))
              {| Next.data := JNull; Next.error := None |}]).
Proof.
  apply (proj2 (read_and_delete_outcomes Example.put_world
                  (js "123e4567-e89b-12d3-a456-426614174000")
                  ltac:(vm_compute; reflexivity))).
Defined.

(* ===================================================================== *)
(** * More on the content codec *)
(* ===================================================================== *)

Lemma kept_media_elem items out o :
  Spec.kept_media items out → o ∈ out →
  ∃ v o' u, v ∈ items ∧ Spec.media_entry v o' u
            ∧ o = <[ js "url" := JStr (trim u) ]> o'.
Proof.
  induction 1 as [|v o' u items out Hm _ IH|v items out _ _ IH]; intros Ho.
  - by apply elem_of_nil in Ho.
  - apply elem_of_cons in Ho as [->|Ho].
    + exists v, o', u. split; [left|done].
    + destruct (IH Ho) as (v' & o'' & u' & ? & ? & ?).
      exists v', o'', u'. split; [by right|done].
  - destruct (IH Ho) as (v' & o'' & u' & ? & ? & ?).
    exists v', o'', u'. split; [by right|done].
Qed.

(** The media of a decoded record, whatever the text was. *)
Lemma decoded_media_cases raw :
  Page.media (Page.parsePostContent raw) = []
  ∨ ∃ items, Page.media (Page.parsePostContent raw)
             = map Page.with_trimmed_url
                 (filter (λ item, Page.is_media_item item = true) items).
Proof.
  destruct raw as [[|c r]|]; [by left|..|by left].
  unfold Page.parsePostContent, Page.parse_structured.
  destruct (JSON_parse (c :: r)) as [p|e]; [|by left].
  destruct p; simpl; try (by left).
  destruct (o !! js "media") as [[| | | |items|]|]; simpl; eauto.
Qed.

(** Whatever the text, the media entries of a decoded record are well
    formed: each has a string [id], a [kind] that is [image] or [video],
    and a string [url] that is already trimmed. *)
Theorem decoded_media_well_formed (raw : option jsstring)
    (o : gmap jsstring json) :
  o ∈ Page.media (Page.parsePostContent raw) →
  (∃ i, o !! js "id" = Some (JStr i))
  ∧ (o !! js "kind" = Some (JStr (js "image"))
     ∨ o !! js "kind" = Some (JStr (js "video")))
  ∧ (∃ u, o !! js "url" = Some (JStr u) ∧ trim u = u).
Proof.
  intros Ho. destruct (decoded_media_cases raw) as [E|[items E]]; rewrite E in Ho.
  { by apply elem_of_nil in Ho. }
  destruct (kept_media_elem _ _ o (decoded_media_kept items) Ho)
    as (v & o' & u & _ & (_ & Hi & Hk & Hu) & ->).
  rewrite !lookup_insert_ne by done. rewrite lookup_insert_eq.
  split; [done|]. split; [done|]. exists (trim u). split; [done|].
  apply trim_idempotent.
Qed.

Lemma decoded_media_well_formed_witness :
  ∃ u, ({[ js "id" := JStr (js "a"); js "kind" := JStr (js "image");
           js "url" := JStr (js "u") ]} : gmap jsstring json) !! js "url"
       = Some (JStr u) ∧ trim u = u.
Proof.
  apply (decoded_media_well_formed
           (Some (Page.serializeContent
                    {| Page.body := []; Page.published := false;
                       Page.media := [ {| Page.id := js "a"; Page.kind := js "image";
                                          Page.url := js " u " |} ] |}))).
  vm_compute. apply list_elem_of_here.
Defined.

(** What the block under [try] gives on a text of [serializeContent]. *)
Lemma parse_structured_serialized (x : Page.Content Page.MediaItem) :
  Page.parse_structured (Page.serializeContent x)
  = Normal {| Page.body := Page.body x; Page.published := Page.published x;
              Page.media :=
                map Page.with_trimmed_url
                  (filter (λ item, Page.is_media_item item = true)
                     (map (λ m, JObj (Spec.item_object m))
                        (filter Spec.has_url (Page.media x)))) |}.
Proof.
  assert (JSON_parse (Page.serializeContent x)
          = Normal (JObj {[ js "body" := JStr (Page.body x);
                            js "published" := JBool (Page.published x);
                            js "media" :=
                              JArr (map (λ m, JObj (Spec.item_object m))
                                      (filter Spec.has_url (Page.media x))) ]}))
    as Hp.
  { unfold Page.serializeContent.
    rewrite JSON_parse_stringify, filter_has_url.
    f_equal. apply to_json_content. }
  rewrite (parse_structured_value _ _ Hp) by (left; eauto).
  reflexivity.
Qed.

Lemma filter_all {A} (P : A → Prop) `{!∀ x, Decision (P x)} (l : list A) :
  Forall P l → filter P l = l.
Proof.
  induction 1 as [|a l Ha _ IH]; [done|]. by rewrite filter_cons_True, IH.
Qed.

(** A record is normalized when its media entries have a valid [kind]
    and a [url] that is trimmed and not empty.  On such a record the
    round trip is exact, and what decoding an encoded record gives is
    normalized: saving it again changes nothing. *)
Theorem decode_encode_exact (x : Page.Content Page.MediaItem) :
  Forall Spec.valid_kind (Page.media x) →
  let normal (y : Page.Content Page.MediaItem) :=
    Forall (λ m, Spec.valid_kind m ∧ Page.url m ≠ []
                 ∧ trim (Page.url m) = Page.url m) (Page.media y) in
  (normal x →
   Page.parsePostContent (Some (Page.serializeContent x)) = Spec.as_parsed x)
  ∧ normal (Spec.with_trimmed_urls (Spec.without_empty_media x)).
Proof.
  intros Hk. cbv zeta. split.
  - intros Hn. unfold Page.parsePostContent.
    destruct (Page.serializeContent x) as [|c r] eqn:Hs;
      [by apply serializeContent_nonempty in Hs|].
    rewrite <- Hs, parse_structured_serialized.
    unfold Spec.as_parsed. f_equal.
    rewrite (filter_all Spec.has_url).
    2:{ eapply Forall_impl; [exact Hn|]. intros m (_ & Hne & Ht).
        unfold Spec.has_url. by rewrite Ht. }
    rewrite decode_item_objects by (eapply Forall_impl; [exact Hn|]; by intros m []).
    f_equal. rewrite <- (map_id (Page.media x)) at 2.
    apply Forall_fmap_ext_1. eapply Forall_impl; [exact Hn|].
    intros [i k u] (_ & _ & Ht). simpl in *. by rewrite Ht.
  - simpl. rewrite Forall_fmap. rewrite Forall_forall in Hk |- *. intros m Hm.
    apply list_elem_of_filter in Hm as [Hu Hm]. simpl.
    split; [exact (Hk m Hm)|]. split; [done|]. apply trim_idempotent.
Qed.

Lemma decode_encode_exact_witness :
  Page.parsePostContent
    (Some (Page.serializeContent
             {| Page.body := js "hi"; Page.published := true;
                Page.media := [ {| Page.id := js "a"; Page.kind := js "video";
                                   Page.url := js "u" |} ] |}))
  = {| Page.body := js "hi"; Page.published := true;
       Page.media := [ {[ js "id" := JStr (js "a"); js "kind" := JStr (js "video");
                          js "url" := JStr (js "u") ]} ] |}.
Proof.
  apply (proj1 (decode_encode_exact
                  {| Page.body := js "hi"; Page.published := true;
                     Page.media := [ {| Page.id := js "a"; Page.kind := js "video";
                                        Page.url := js "u" |} ] |}
                  ltac:(constructor; [right; reflexivity|constructor]))).
  constructor; [|constructor].
  split; [right; reflexivity|]. split; [discriminate|reflexivity].
Defined.

Lemma item_object_inj m1 m2 :
  JObj (Spec.item_object m1) = JObj (Spec.item_object m2) → m1 = m2.
Proof.
  intros H.
  assert (∀ k, Spec.item_object m1 !! k = Spec.item_object m2 !! k) as Hk.
  { intros k.
    apply (f_equal (λ v, match v with JObj o => o !! k | _ => None end)) in H.
    exact H. }
  pose proof (Hk (js "id")) as Hi.
  pose proof (Hk (js "kind")) as Hkind.
  pose proof (Hk (js "url")) as Hu.
  unfold Spec.item_object in Hi, Hkind, Hu.
  rewrite !lookup_insert_eq in Hi.
  rewrite !(lookup_insert_ne _ (js "id")), !lookup_insert_eq in Hkind by done.
  rewrite !(lookup_insert_ne _ (js "id")), !(lookup_insert_ne _ (js "kind")),
    !lookup_singleton_eq in Hu by done.
  destruct m1, m2. simpl in *. congruence.
Qed.

Lemma item_objects_inj (l1 l2 : list Page.MediaItem) :
  map (λ m, JObj (Spec.item_object m)) l1 = map (λ m, JObj (Spec.item_object m)) l2 →
  l1 = l2.
Proof.
  revert l2. induction l1 as [|m1 l1 IH]; intros [|m2 l2] H; try done.
  pose proof (f_equal head H) as H1. pose proof (f_equal tail H) as H2.
  simpl in H1, H2. f_equal; [apply item_object_inj; congruence|by apply IH].
Qed.

(** The value that encoding stores, for any record. *)
Lemma serialized_value (z : Page.Content Page.MediaItem) :
  JSON_parse (Page.serializeContent z)
  = Normal (JObj {[ js "body" := JStr (Page.body z);
                    js "published" := JBool (Page.published z);
                    js "media" :=
                      JArr (map (λ m, JObj (Spec.item_object m))
                              (filter Spec.has_url (Page.media z))) ]}).
Proof.
  unfold Page.serializeContent.
  rewrite JSON_parse_stringify, filter_has_url. f_equal. apply to_json_content.
Qed.

(** The texts of two records denote the same value exactly when the
    records are the same once their empty media entries are removed:
    encoding forgets those entries and nothing else.  The statement is
    on the value that [JSON.parse] reads back from the text, which does
    not depend on the order in which the properties of an entry are
    written. *)
Theorem serialize_same_value (x y : Page.Content Page.MediaItem) :
  JSON_parse (Page.serializeContent x) = JSON_parse (Page.serializeContent y)
  ↔ Spec.without_empty_media x = Spec.without_empty_media y.
Proof.
  rewrite !serialized_value. split.
  - intros H.
    assert (∀ k, ({[ js "body" := JStr (Page.body x);
                     js "published" := JBool (Page.published x);
                     js "media" :=
                       JArr (map (λ m, JObj (Spec.item_object m))
                               (filter Spec.has_url (Page.media x))) ]}
                  : gmap jsstring json) !! k
                 = ({[ js "body" := JStr (Page.body y);
                       js "published" := JBool (Page.published y);
                       js "media" :=
                         JArr (map (λ m, JObj (Spec.item_object m))
                                 (filter Spec.has_url (Page.media y))) ]}
                    : gmap jsstring json) !! k) as Hk.
    { intros k.
      apply (f_equal (λ c, match c with
                           | Normal (JObj o) => o !! k
                           | _ => None
                           end)) in H.
      exact H. }
    pose proof (Hk (js "body")) as Hb.
    pose proof (Hk (js "published")) as Hpub.
    pose proof (Hk (js "media")) as Hm.
    rewrite !lookup_insert_eq in Hb.
    rewrite !(lookup_insert_ne _ (js "body")), !lookup_insert_eq in Hpub by done.
    rewrite !(lookup_insert_ne _ (js "body")), !(lookup_insert_ne _ (js "published")),
      !lookup_singleton_eq in Hm by done.
    unfold Spec.without_empty_media. f_equal; [congruence|congruence|].
    apply item_objects_inj. congruence.
  - intros H. unfold Spec.without_empty_media in H. injection H as Hb Hp Hm.
    by rewrite Hb, Hp, Hm.
Qed.

(** An entry that was just added, with its empty [url], does not reach
    the text: encoding the list with it is encoding the list. *)
Theorem added_media_not_serialized (fresh kind_ : jsstring)
    (x : Page.Content Page.MediaItem) :
  Page.serializeContent
    {| Page.body := Page.body x; Page.published := Page.published x;
       Page.media := Page.addMedia fresh kind_ (Page.media x) |}
  = Page.serializeContent x.
Proof.
  unfold Page.serializeContent, Page.addMedia. simpl.
  rewrite filter_app, filter_cons_False, filter_nil, app_nil_r; [done|].
  simpl. lia.
Qed.

Lemma JSON_parse_plain raw :
  match skip_ws raw with
  | [] => True
  | c :: _ => ¬ Spec.starts_json_value c
  end →
  JSON_parse raw = Throw SyntaxError.
Proof.
  intros H. unfold JSON_parse, parse_fuel.
  replace (2 * length raw + 2) with (S (2 * length raw + 1)) by lia.
  rewrite parse_value_S. destruct (skip_ws raw) as [|c r]; [done|].
  unfold Spec.starts_json_value in H.
  repeat match goal with
  | |- context [(c =? ?k)%N] =>
      destruct (N.eqb_spec c k); [exfalso; apply H; subst; tauto|]
  end.
  unfold parse_number.
  destruct (N.eqb_spec c (ch "-")); [exfalso; apply H; tauto|].
  destruct (is_digit c) eqn:Hd; [exfalso; apply H; tauto|]. reflexivity.
Qed.

(** A caption in plain text is kept as it is: a text that does not start,
    after JSON white space, with a code unit that can start a JSON value
    (a quotation mark, a bracket, a brace, a minus sign, a digit or one
    of [t], [f], [n]) is decoded to itself as [body], unpublished and
    without media. *)
Theorem plain_text_caption (raw : jsstring) :
  raw ≠ [] →
  match skip_ws raw with
  | [] => True
  | c :: _ => ¬ Spec.starts_json_value c
  end →
  Page.parsePostContent (Some raw) = Spec.caption_only raw.
Proof.
  intros Hne H. unfold Page.parsePostContent, Page.parse_structured.
  destruct raw as [|c r]; [done|]. by rewrite (JSON_parse_plain _ H).
Qed.

Lemma plain_text_caption_witness :
  Page.parsePostContent (Some (js "Sunset at the beach"))
  = Spec.caption_only (js "Sunset at the beach").
Proof.
  apply (plain_text_caption (js "Sunset at the beach")).
  - discriminate.
  - vm_compute. intros H.
    repeat (destruct H as [H|H]; [discriminate H|]). discriminate H.
Defined.

(* ===================================================================== *)
(** * The admin form: editing the media list *)
(* ===================================================================== *)

(** Removing what was just added.  The entry goes, and with it every
    older entry that happens to have the same [id]; when the [id] is
    new, the list is as before. *)
Theorem remove_after_add (fresh kind_ : jsstring) (items : list Page.MediaItem) :
  Page.removeMedia fresh (Page.addMedia fresh kind_ items)
  = Page.removeMedia fresh items
  ∧ (Forall (λ m, Page.id m ≠ fresh) items →
     Page.removeMedia fresh (Page.addMedia fresh kind_ items) = items).
Proof.
  assert (Page.removeMedia fresh (Page.addMedia fresh kind_ items)
          = Page.removeMedia fresh items) as E.
  { unfold Page.removeMedia, Page.addMedia.
    rewrite filter_app, filter_cons_False.
    - apply app_nil_r.
    - simpl. intros H. by apply H. }
  split; [done|]. intros H. rewrite E. clear E. unfold Page.removeMedia.
  induction H as [|m l Hm _ IH]; [done|].
  rewrite filter_cons_True by done. by rewrite IH.
Qed.

Lemma remove_after_add_witness :
  Page.removeMedia (js "k3")
    (Page.addMedia (js "k3") (js "image")
       [ {| Page.id := js "k1"; Page.kind := js "image"; Page.url := js "u" |} ])
  = [ {| Page.id := js "k1"; Page.kind := js "image"; Page.url := js "u" |} ].
Proof.
  apply (proj2 (remove_after_add (js "k3") (js "image")
                  [ {| Page.id := js "k1"; Page.kind := js "image";
                       Page.url := js "u" |} ])).
  constructor; [discriminate|constructor].
Defined.

Lemma updateMedia_ids i u (items : list Page.MediaItem) :
  Page.new_id u = None →
  map Page.id (Page.updateMedia i u items) = map Page.id items.
Proof.
  intros Hu. unfold Page.updateMedia. rewrite map_map. apply map_ext.
  intros m. destruct (decide _); [|done]. unfold Page.merge. simpl. by rewrite Hu.
Qed.

(** With distinct [id]s, [updateMedia] changes one entry: the entry of
    the given [id], at its place, and no other. *)
Theorem updateMedia_one (i : nat) (m : Page.MediaItem) (u : Page.MediaUpdates)
    (items : list Page.MediaItem) :
  NoDup (map Page.id items) → items !! i = Some m →
  Page.updateMedia (Page.id m) u items = <[ i := Page.merge m u ]> items.
Proof.
  revert i. induction items as [|a items IH]; intros i Hn Hi; [done|].
  apply NoDup_cons in Hn as [Ha Hn]. unfold Page.updateMedia in *.
  destruct i as [|i]; simpl in *.
  - injection Hi as ->. rewrite decide_True by done. f_equal.
    rewrite <- (map_id items) at 2. apply map_ext_in. intros b Hb.
    destruct (decide _) as [E|]; [|done]. exfalso. apply Ha.
    rewrite <- E. apply list_elem_of_In. apply in_map. exact Hb.
  - rewrite decide_False.
    + f_equal. by apply IH.
    + intros E. apply Ha. rewrite E. apply list_elem_of_lookup_2 in Hi.
      apply list_elem_of_fmap. eauto.
Qed.

Lemma updateMedia_one_witness :
  Page.updateMedia (js "b") {| Page.new_id := None; Page.new_kind := None;
                               Page.new_url := Some (js "v") |}
    [ {| Page.id := js "a"; Page.kind := js "image"; Page.url := js "u" |};
      {| Page.id := js "b"; Page.kind := js "video"; Page.url := [] |} ]
  = [ {| Page.id := js "a"; Page.kind := js "image"; Page.url := js "u" |};
      {| Page.id := js "b"; Page.kind := js "video"; Page.url := js "v" |} ].
Proof.
  apply (updateMedia_one 1
           {| Page.id := js "b"; Page.kind := js "video"; Page.url := [] |}
           {| Page.new_id := None; Page.new_kind := None;
              Page.new_url := Some (js "v") |}
           [ {| Page.id := js "a"; Page.kind := js "image"; Page.url := js "u" |};
             {| Page.id := js "b"; Page.kind := js "video"; Page.url := [] |} ]).
  - apply NoDup_cons. split; [|apply NoDup_singleton].
    intros H. apply list_elem_of_singleton in H. discriminate H.
  - reflexivity.
Defined.

Lemma splice_start_nat (len i : nat) :
  Z.to_nat (Page.splice_start (Z.of_nat len) (Z.of_nat i)) = i `min` len.
Proof.
  unfold Page.splice_start. destruct (Z.ltb_spec (Z.of_nat i) 0); lia.
Qed.

Lemma reorderMedia_in_range (fromIndex toIndex : nat) (x : Page.MediaItem)
    (items : list Page.MediaItem) :
  items !! fromIndex = Some x →
  Page.reorderMedia (Z.of_nat fromIndex) (Z.of_nat toIndex) items
  = map Some (take (toIndex `min` length (delete fromIndex items))
                (delete fromIndex items)
              ++ x :: drop (toIndex `min` length (delete fromIndex items))
                        (delete fromIndex items)).
Proof.
  intros Hx. pose proof (lookup_lt_Some _ _ _ Hx) as Hlt.
  unfold Page.reorderMedia. cbv zeta.
  rewrite !length_map, !splice_start_nat.
  replace (fromIndex `min` length items) with fromIndex by lia.
  assert (take fromIndex (map Some items) ++ drop (fromIndex + 1) (map Some items)
          = map Some (delete fromIndex items)) as ->.
  { rewrite delete_take_drop, map_app.
    change (map Some items) with (Some <$> items).
    rewrite fmap_take, fmap_drop. by rewrite Nat.add_1_r. }
  assert (take 1 (drop fromIndex (map Some items)) = [Some x]) as ->.
  { rewrite <- (take_drop_middle items fromIndex x Hx) at 1.
    rewrite map_app. rewrite drop_app_length'; [done|].
    rewrite length_map, length_take. lia. }
  rewrite length_map, map_app. simpl.
  change (map Some (delete fromIndex items)) with (Some <$> delete fromIndex items).
  by rewrite fmap_take, fmap_drop.
Qed.

Lemma moved_Permutation (i b : nat) (x : Page.MediaItem)
    (items : list Page.MediaItem) :
  items !! i = Some x →
  take b (delete i items) ++ x :: drop b (delete i items) ≡ₚ items.
Proof.
  intros Hx. rewrite <- Permutation_middle, take_drop.
  symmetry. by apply delete_Permutation.
Qed.

(** Moving an entry of the list: for indices that are natural numbers,
    the first inside the list, the entry is taken out and put back at the
    second index, or at the end when that index is beyond it.  The
    result has no [undefined], it is a rearrangement of the list, and
    moving an entry onto its own place changes nothing. *)
Theorem reorder_in_range (fromIndex toIndex : nat) (x : Page.MediaItem)
    (items : list Page.MediaItem) :
  items !! fromIndex = Some x →
  let rest := delete fromIndex items in
  let b := toIndex `min` length rest in
  let moved := take b rest ++ x :: drop b rest in
  Page.reorderMedia (Z.of_nat fromIndex) (Z.of_nat toIndex) items = map Some moved
  ∧ moved ≡ₚ items
  ∧ moved !! b = Some x
  ∧ (fromIndex = toIndex → moved = items).
Proof.
  intros Hx rest b moved.
  pose proof (lookup_lt_Some _ _ _ Hx) as Hlt.
  assert (length rest = length items - 1) as Hlen.
  { unfold rest. rewrite length_delete; [lia|eauto]. }
  split; [by apply reorderMedia_in_range|]. split; [by apply moved_Permutation|].
  split.
  - unfold moved. apply list_lookup_middle. rewrite length_take. lia.
  - intros <-. unfold moved, b, rest.
    replace (fromIndex `min` length (delete fromIndex items)) with fromIndex
      by (fold rest; lia).
    rewrite delete_take_drop.
    rewrite take_app_length', drop_app_length' by (rewrite length_take; lia).
    by apply take_drop_middle.
Qed.

Lemma reorder_in_range_witness :
  Page.reorderMedia 0 1
    [ {| Page.id := js "a"; Page.kind := js "image"; Page.url := js "u" |};
      {| Page.id := js "b"; Page.kind := js "video"; Page.url := js "v" |} ]
  = [ Some {| Page.id := js "b"; Page.kind := js "video"; Page.url := js "v" |};
      Some {| Page.id := js "a"; Page.kind := js "image"; Page.url := js "u" |} ].
Proof.
  apply (proj1 (reorder_in_range 0 1
                  {| Page.id := js "a"; Page.kind := js "image"; Page.url := js "u" |}
                  [ {| Page.id := js "a"; Page.kind := js "image"; Page.url := js "u" |};
                    {| Page.id := js "b"; Page.kind := js "video"; Page.url := js "v" |} ]
                  eq_refl)).
Defined.

(** Moving from an index beyond the list: nothing is taken out, and
    [undefined] is put into the list, which grows by one. *)
Theorem reorder_out_of_range (fromIndex toIndex : nat)
    (items : list Page.MediaItem) :
  length items ≤ fromIndex →
  let b := toIndex `min` length items in
  Page.reorderMedia (Z.of_nat fromIndex) (Z.of_nat toIndex) items
  = take b (map Some items) ++ None :: drop b (map Some items)
  ∧ length (Page.reorderMedia (Z.of_nat fromIndex) (Z.of_nat toIndex) items)
    = S (length items)
  ∧ None ∈ Page.reorderMedia (Z.of_nat fromIndex) (Z.of_nat toIndex) items.
Proof.
  intros Hle b.
  assert (Page.reorderMedia (Z.of_nat fromIndex) (Z.of_nat toIndex) items
          = take b (map Some items) ++ None :: drop b (map Some items)) as E.
  { unfold Page.reorderMedia. cbv zeta.
    rewrite !length_map, !splice_start_nat.
    replace (fromIndex `min` length items) with (length items) by lia.
    rewrite (drop_ge _ (length items + 1)) by (rewrite length_map; lia).
    rewrite (drop_ge _ (length items)) by (rewrite length_map; lia).
    rewrite (take_ge _ (length items)) by (rewrite length_map; lia).
    rewrite app_nil_r. simpl. by rewrite length_map. }
  rewrite E. split; [done|]. split.
  - rewrite length_app. simpl. rewrite length_take, length_drop, length_map. lia.
  - apply elem_of_app. right. left.
Qed.

Lemma reorder_out_of_range_witness :
  Page.reorderMedia 5 0
    [ {| Page.id := js "a"; Page.kind := js "image"; Page.url := js "u" |} ]
  = [ None;
      Some {| Page.id := js "a"; Page.kind := js "image"; Page.url := js "u" |} ].
Proof.
  apply (proj1 (reorder_out_of_range 5 0
                  [ {| Page.id := js "a"; Page.kind := js "image"; Page.url := js "u" |} ]
                  ltac:(simpl; lia))).
Defined.

(** The [id]s of the list stay distinct under editing: adding an entry
    with a new [id], removing an entry, updating an entry without giving
    it another [id], and moving an entry of the list. *)
Theorem editing_keeps_ids_distinct (items : list Page.MediaItem) :
  NoDup (map Page.id items) →
  (∀ fresh kind_, fresh ∉ map Page.id items →
     NoDup (map Page.id (Page.addMedia fresh kind_ items)))
  ∧ (∀ i, NoDup (map Page.id (Page.removeMedia i items)))
  ∧ (∀ i u, Page.new_id u = None →
       NoDup (map Page.id (Page.updateMedia i u items)))
  ∧ (∀ fromIndex toIndex : nat, fromIndex < length items →
       ∃ moved, Page.reorderMedia (Z.of_nat fromIndex) (Z.of_nat toIndex) items
                = map Some moved
                ∧ NoDup (map Page.id moved)).
Proof.
  intros Hn. split; [|split; [|split]].
  - intros fresh kind_ Hf. unfold Page.addMedia. rewrite map_app. simpl.
    apply NoDup_app. split; [done|]. split; [|apply NoDup_singleton].
    intros i Hi Hi'. apply list_elem_of_singleton in Hi'. by subst.
  - intros i. unfold Page.removeMedia.
    eapply sublist_NoDup; [exact Hn|].
    change (map Page.id items) with (Page.id <$> items).
    apply fmap_sublist, sublist_filter.
  - intros i u Hu. by rewrite updateMedia_ids.
  - intros fromIndex toIndex Hlt.
    destruct (lookup_lt_is_Some_2 items fromIndex Hlt) as [x Hx].
    eexists. split; [by apply reorderMedia_in_range|].
    change (NoDup (Page.id <$> items)) in Hn.
    eapply NoDup_Permutation_proper; [|exact Hn].
    apply fmap_Permutation. by apply moved_Permutation.
Qed.

Lemma editing_keeps_ids_distinct_witness :
  NoDup (map Page.id
           (Page.addMedia (js "b") (js "video")
              [ {| Page.id := js "a"; Page.kind := js "image"; Page.url := js "u" |} ])).
Proof.
  apply (proj1 (editing_keeps_ids_distinct
                  [ {| Page.id := js "a"; Page.kind := js "image";
                       Page.url := js "u" |} ]
                  ltac:(apply NoDup_singleton))).
  intros H. apply list_elem_of_singleton in H. discriminate H.
Defined.

(* ===================================================================== *)
(** * The gallery: the modal and its slides *)
(* ===================================================================== *)

Lemma modal_ok_act st a : Spec.modal_ok st → Spec.modal_ok (Spec.act st a).
Proof.
  intros H. destruct a as [post| | |]; simpl.
  - right. exists 0%Z. split; [done|lia].
  - by left.
  - destruct H as [H|(i & Hi & Hr)]; [by left|].
    destruct st as [[post|] active]; [|by left]. simpl in *. subst.
    right. unfold Page.nextSlide, Page.slides. simpl.
    assert (i = 0 ∨ i = 1 ∨ i = 2)%Z as [->|[->| ->]] by lia;
      vm_compute; eexists; (split; [reflexivity|done]).
  - destruct H as [H|(i & Hi & Hr)]; [by left|].
    destruct st as [[post|] active]; [|by left]. simpl in *. subst.
    right. unfold Page.previousSlide, Page.slides. simpl.
    assert (i = 0 ∨ i = 1 ∨ i = 2)%Z as [->|[->| ->]] by lia;
      vm_compute; eexists; (split; [reflexivity|done]).
Qed.

Lemma modal_ok_reachable (actions : list Spec.modal_action) :
  Spec.modal_ok (foldl Spec.act Spec.modal_init actions).
Proof.
  induction actions as [|a actions IH] using rev_ind; [by left|].
  rewrite foldl_app. simpl. apply modal_ok_act, IH.
Qed.

(** Whatever the visitor does, starting from the closed modal, the slide
    that the modal renders exists: with a post selected, the active
    slide is the index of one of the three slides of the post. *)
Theorem modal_slide_defined (actions : list Spec.modal_action) :
  let st := foldl Spec.act Spec.modal_init actions in
  Page.selectedPost st ≠ None →
  ∃ i slide, Page.activeSlide st = Some i ∧ (0 ≤ i < 3)%Z
             ∧ Page.current_slide st = Some slide.
Proof.
  intros st Hs.
  destruct (modal_ok_reachable actions) as [H|(i & Hi & Hr)]; [done|].
  fold st in Hi.
  destruct (Page.selectedPost st) as [post|] eqn:Hp; [|done].
  exists i. unfold Page.current_slide, Page.slides. rewrite Hi, Hp.
  assert (i = 0 ∨ i = 1 ∨ i = 2)%Z as [->|[->| ->]] by lia;
    eexists; (split; [reflexivity|]); (split; [lia|reflexivity]).
Qed.

Lemma modal_slide_defined_witness :
  ∃ i slide,
    Page.activeSlide
      (foldl Spec.act Spec.modal_init
         [Spec.Open Example.post; Spec.Next; Spec.Next; Spec.Next; Spec.Previous])
    = Some i
    ∧ (0 ≤ i < 3)%Z
    ∧ Page.current_slide
        (foldl Spec.act Spec.modal_init
           [Spec.Open Example.post; Spec.Next; Spec.Next; Spec.Next; Spec.Previous])
      = Some slide.
Proof.
  apply (modal_slide_defined
           [Spec.Open Example.post; Spec.Next; Spec.Next; Spec.Next; Spec.Previous]).
  discriminate.
Defined.

(** With a post selected, [Next] and [Previous] undo each other, and
    three times [Next] comes back to the same slide. *)
Theorem next_previous_inverse (st : Page.Modal) (i : Z) :
  Page.selectedPost st ≠ None → Page.activeSlide st = Some i → (0 ≤ i < 3)%Z →
  Page.previousSlide (Page.nextSlide st) = st
  ∧ Page.nextSlide (Page.previousSlide st) = st
  ∧ Page.nextSlide (Page.nextSlide (Page.nextSlide st)) = st.
Proof.
  intros Hs Hi Hr. destruct st as [[post|] active]; [|done]. simpl in Hi. subst.
  unfold Page.nextSlide, Page.previousSlide, Page.slides. simpl.
  assert (i = 0 ∨ i = 1 ∨ i = 2)%Z as [->|[->| ->]] by lia; done.
Qed.

Lemma next_previous_inverse_witness :
  Page.previousSlide
    (Page.nextSlide {| Page.selectedPost := Some Example.post;
                       Page.activeSlide := Some 2%Z |})
  = {| Page.selectedPost := Some Example.post; Page.activeSlide := Some 2%Z |}.
Proof.
  apply (proj1 (next_previous_inverse
                  {| Page.selectedPost := Some Example.post;
                     Page.activeSlide := Some 2%Z |} 2
                  ltac:(discriminate) eq_refl ltac:(lia))).
Defined.

(* ===================================================================== *)
(** * From the admin form to the backend *)
(* ===================================================================== *)

(** What the server reads from the body that [onSubmit] sends. *)
Lemma submit_body_parses title profileId (data : Page.Content Page.MediaItem) :
  JSON_parse (Page.submit_body title profileId data)
  = Normal (JObj {[ js "title" := JStr title;
                    js "profile_id" := JStr profileId;
                    js "content" := JStr (Page.serializeContent data) ]}).
Proof. unfold Page.submit_body. rewrite JSON_parse_stringify. reflexivity. Qed.

(** A run of the create handler on a body that is JSON. *)
Lemma run_POST w p :
  request_json w = Normal p →
  run w Posts.POST
  = match Posts.valid (Posts.validateCreatePostPayload p),
          Posts.data (Posts.validateCreatePostPayload p) with
    | true, Some d =>
        let q := InsertPost (Posts.payload_object d) in
        (match Next.error (backend w q) with
         | Some e => json_response (field (js "error") (Some (JStr (message e)))) 500
         | None => json_response (field (js "data") (Some (Next.data (backend w q)))) 201
         end,
         [ReadBody; Queried q (backend w q)])
    | _, _ =>
        (json_response
           (field (js "error")
              (JStr <$> Posts.error (Posts.validateCreatePostPayload p))) 400,
         [ReadBody])
    end.
Proof.
  intros Hp. unfold Posts.POST. rewrite run_request, Hp. cbv beta iota zeta.
  destruct (Posts.valid _); cbn [negb]; [|done].
  destruct (Posts.data _); [|done].
  rewrite run_await. by destruct (Next.error _).
Qed.

(** The create-payload validator on the payload of the form. *)
Lemma validate_submitted title profileId (content_ : jsstring) :
  Posts.validateCreatePostPayload
    (JObj {[ js "title" := JStr title;
             js "profile_id" := JStr profileId;
             js "content" := JStr content_ ]})
  = if (length (trim title) =? 0)%nat then Posts.invalid Posts.title_required
    else if negb (Posts.isUuid profileId)
         then Posts.invalid Posts.profile_id_required
         else {| Posts.valid := true;
                 Posts.data :=
                   Some {| Posts.title := trim title;
                           Posts.content := Some content_;
                           Posts.profile_id := profileId |};
                 Posts.error := None |}.
Proof.
  unfold Posts.validateCreatePostPayload. simpl.
  rewrite lookup_insert_eq. simpl.
  destruct (length (trim title) =? 0)%nat; [done|].
  rewrite lookup_insert_ne, lookup_insert_eq by done. simpl.
  destruct (Posts.isUuid profileId); [|done]. simpl.
  rewrite !lookup_insert_ne, lookup_singleton_eq by done. reflexivity.
Qed.

(** Saving a new post from the admin form.  The create handler receives
    the body that [onSubmit] sends.  A title that is blank and a profile
    id that is no UUID are refused with 400 and nothing is stored;
    otherwise the one query of the run inserts the trimmed title, the
    profile id of the form and, as content, the text of
    [serializeContent].  The profile id that the form starts with is a
    UUID. *)
Theorem submit_create (title profileId : jsstring)
    (data : Page.Content Page.MediaItem) (w : world) :
  request_json w = JSON_parse (Page.submit_body title profileId data) →
  (trim title = [] →
     run w Posts.POST
     = ({| status := 400;
           payload := Some (JObj {[ js "error" := JStr Posts.title_required ]}) |},
        [ReadBody]))
  ∧ (trim title ≠ [] → Posts.isUuid profileId = false →
     run w Posts.POST
     = ({| status := 400;
           payload := Some (JObj {[ js "error" := JStr Posts.profile_id_required ]}) |},
        [ReadBody]))
  ∧ (trim title ≠ [] → Posts.isUuid profileId = true →
     let q := InsertPost {[ js "title" := JStr (trim title);
                            js "content" := JStr (Page.serializeContent data);
                            js "profile_id" := JStr profileId ]} in
     (run w Posts.POST).2 = [ReadBody; Queried q (backend w q)])
  ∧ Posts.isUuid Page.defaultProfileId = true.
Proof.
  intros Hw. rewrite submit_body_parses in Hw.
  rewrite (run_POST _ _ Hw), validate_submitted.
  split; [|split; [|split]].
  - intros Ht. rewrite Ht. reflexivity.
  - intros Ht Hu. rewrite Hu.
    destruct (length (trim title) =? 0)%nat eqn:El;
      [by apply length_eqb_nil in El|]. reflexivity.
  - intros Ht Hu q. rewrite Hu.
    destruct (length (trim title) =? 0)%nat eqn:El;
      [by apply length_eqb_nil in El|]. reflexivity.
  - vm_compute. reflexivity.
Qed.

Lemma submit_create_witness :
  (run (Example.form_world (js " Hello ") Page.defaultProfileId Example.draft)
       Posts.POST).2
  = [ReadBody;
     Queried (InsertPost
                {[ js "title" := JStr (js "Hello");
                   js "content" := JStr (Page.serializeContent Example.draft);
                   js "profile_id" := JStr Page.defaultProfileId ]})
             {| Next.data := JNull; Next.error := None |}].
Proof.
  apply (proj1 (proj2 (proj2 (submit_create (js " Hello ") Page.defaultProfileId
                                Example.draft
                                (Example.form_world (js " Hello ")
                                   Page.defaultProfileId Example.draft)
                                eq_refl)))).
  - vm_compute. discriminate.
  - vm_compute. reflexivity.
Defined.

(** A run of the update handler on a valid identifier and a body that
    is JSON. *)
Lemma run_PUT w id p :
  PostById.isUuid id = true → request_json w = Normal p →
  run w (PostById.PUT id)
  = match PostById.valid (PostById.validateUpdatePayload p),
          PostById.data (PostById.validateUpdatePayload p) with
    | true, Some u =>
        let a := backend w (UpdatePost u id) in
        (match Next.error a with
         | Some e => PostById.server_error e
         | None => if truthy (Some (Next.data a))
                   then json_response (field (js "data") (Some (Next.data a))) 200
                   else PostById.not_found
         end,
         [ReadBody; Queried (UpdatePost u id) a])
    | _, _ =>
        (json_response
           (field (js "error")
              (JStr <$> PostById.error (PostById.validateUpdatePayload p))) 400,
         [ReadBody])
    end.
Proof.
  intros Hid Hp. unfold PostById.PUT. rewrite Hid. cbn [negb].
  rewrite run_request, Hp. cbv beta iota zeta.
  destruct (PostById.valid _); cbn [negb]; [|done].
  destruct (PostById.data _); [|done].
  rewrite run_await, run_found. reflexivity.
Qed.

(** Saving an edited post from the admin form.  The update handler
    receives the same body.  A blank title is refused with 400;
    otherwise the one query of the run updates the post of the path with
    the trimmed title and the text of [serializeContent], and with
    nothing else: the profile id of the form is not written. *)
Theorem submit_update (id title profileId : jsstring)
    (data : Page.Content Page.MediaItem) (w : world) :
  PostById.isUuid id = true →
  request_json w = JSON_parse (Page.submit_body title profileId data) →
  (trim title = [] →
     run w (PostById.PUT id)
     = ({| status := 400;
           payload := Some (JObj {[ js "error" := JStr PostById.title_invalid ]}) |},
        [ReadBody]))
  ∧ (trim title ≠ [] →
     let q := UpdatePost {[ js "title" := JStr (trim title);
                            js "content" := JStr (Page.serializeContent data) ]} id in
     (run w (PostById.PUT id)).2 = [ReadBody; Queried q (backend w q)]).
Proof.
  intros Hid Hw. rewrite submit_body_parses in Hw.
  rewrite (run_PUT _ _ _ Hid Hw).
  assert (PostById.validateUpdatePayload
            (JObj {[ js "title" := JStr title;
                     js "profile_id" := JStr profileId;
                     js "content" := JStr (Page.serializeContent data) ]})
          = if (length (trim title) =? 0)%nat then PostById.invalid PostById.title_invalid
            else {| PostById.valid := true;
                    PostById.data :=
                      Some {[ js "title" := JStr (trim title);
                              js "content" := JStr (Page.serializeContent data) ]};
                    PostById.error := None |}) as ->.
  { unfold PostById.validateUpdatePayload. simpl.
    rewrite lookup_insert_eq. simpl.
    destruct (length (trim title) =? 0)%nat; [done|].
    rewrite !lookup_insert_ne, lookup_singleton_eq by done. simpl.
    reflexivity. }
  split.
  - intros Ht. rewrite Ht. reflexivity.
  - intros Ht q.
    destruct (length (trim title) =? 0)%nat eqn:El;
      [by apply length_eqb_nil in El|]. reflexivity.
Qed.

Lemma submit_update_witness :
  (run (Example.form_world (js " Hello ") Page.defaultProfileId Example.draft)
       (PostById.PUT (js "123e4567-e89b-12d3-a456-426614174000"))).2
  = [ReadBody;
     Queried (UpdatePost
                {[ js "title" := JStr (js "Hello");
                   js "content" := JStr (Page.serializeContent Example.draft) ]}
                (js "123e4567-e89b-12d3-a456-426614174000"))
             {| Next.data := JNull; Next.error := None |}].
Proof.
  apply (proj2 (submit_update (js "123e4567-e89b-12d3-a456-426614174000")
                  (js " Hello ") Page.defaultProfileId Example.draft
                  (Example.form_world (js " Hello ") Page.defaultProfileId
                     Example.draft)
                  ltac:(vm_compute; reflexivity) eq_refl)).
  vm_compute. discriminate.
Defined.

(* ===================================================================== *)
(** * The pages as clients of the handlers *)
(* ===================================================================== *)

(** The gallery in front of the list handler.  When the backend fails,
    the gallery shows [Failed to fetch posts.] and keeps the posts it
    had: the message of the backend, which the handler passes on, is not
    shown.  Otherwise it shows the rows, none when the backend gave
    [null]. *)
Theorem gallery_loads (w : world) (st : Page.Gallery) :
  Page.loadPosts (run w Posts.GET).1 st
  = match Next.error (backend w SelectPosts) with
    | Some e =>
        {| Page.posts := Page.posts st;
           Page.gallery_error := Some (Page.Text (js "Failed to fetch posts."));
           Page.loading := false |}
    | None =>
        {| Page.posts :=
             match Next.data (backend w SelectPosts) with
             | JNull => JArr []
             | rows => rows
             end;
           Page.gallery_error := Page.gallery_error st;
           Page.loading := false |}
    end.
Proof.
  unfold Posts.GET. rewrite run_await. cbn [fst].
  destruct (Next.error (backend w SelectPosts)) as [e|]; [reflexivity|].
  unfold Page.loadPosts, Page.fetched_posts. simpl.
  rewrite lookup_singleton_eq. simpl.
  by destruct (Next.data (backend w SelectPosts)).
Qed.

(** Saving a new post from the admin form, to the end of [onSubmit].
    The create handler answers the request of the form in the world [w];
    the list handler answers the reload in the world [w'].  When the save
    is refused, for a blank title, a profile id that is no UUID or a
    failure of the backend, the form shows the message and keeps what was
    typed: nothing of the state changes but the error.  When the row was
    stored, the form is emptied, the profile id apart, whether or not the
    reload succeeds: a reload that fails shows [Unable to load posts.]
    and keeps the old list, one that succeeds shows no error and the rows
    of the backend. *)
Theorem onSubmit_create (st : Page.Admin.State) (w w' : world) :
  Page.Admin.selectedPostId st = None →
  request_json w = JSON_parse (Page.Admin.request_body st) →
  let q := InsertPost
             {[ js "title" := JStr (trim (Page.Admin.title st));
                js "content" :=
                  JStr (Page.serializeContent (Page.Admin.form_content st));
                js "profile_id" := JStr (Page.Admin.profileId st) ]} in
  let refused m :=
    Page.Admin.setSubmitting false
      (Page.Admin.setError (Some (Page.Text m)) st) in
  let stored err rows :=
    {| Page.Admin.posts := rows;
       Page.Admin.loading := false;
       Page.Admin.error := err;
       Page.Admin.selectedPostId := None;
       Page.Admin.title := [];
       Page.Admin.body := [];
       Page.Admin.published := false;
       Page.Admin.mediaItems := [];
       Page.Admin.profileId := Page.Admin.profileId st;
       Page.Admin.submitting := false |} in
  Page.Admin.onSubmit (run w Posts.POST).1 (run w' Posts.GET).1 st
  = if decide (trim (Page.Admin.title st) = []) then refused Posts.title_required
    else if negb (Posts.isUuid (Page.Admin.profileId st))
         then refused Posts.profile_id_required
         else
           match Next.error (backend w q) with
           | Some e => refused (message e)
           | None =>
               match Next.error (backend w' SelectPosts) with
               | Some _ =>
                   stored (Some (Page.Text (js "Unable to load posts.")))
                          (Page.Admin.posts st)
               | None =>
                   stored None
                          match Next.data (backend w' SelectPosts) with
                          | JNull => JArr []
                          | rows => rows
                          end
               end
           end.
Proof.
  intros Hs Hw q refused stored.
  unfold Page.Admin.request_body in Hw. rewrite submit_body_parses in Hw.
  rewrite (run_POST _ _ Hw), validate_submitted.
  unfold Posts.GET. rewrite run_await. cbn [fst].
  assert (∀ saved listed,
            Page.Admin.onSubmit saved listed st
            = Page.Admin.setSubmitting false
                (if negb (Page.response_ok saved)
                 then Page.Admin.setError (Some (Page.Admin.save_failure saved)) st
                 else Page.Admin.startCreate
                        (match Page.Admin.loaded_posts listed with
                         | inr data_ =>
                             Page.Admin.setPosts data_
                               (Page.Admin.setLoading false
                                  (Page.Admin.setError None st))
                         | inl m =>
                             Page.Admin.setLoading false
                               (Page.Admin.setError (Some m) st)
                         end))) as ->.
  { intros saved listed. unfold Page.Admin.onSubmit, Page.Admin.loadPosts.
    destruct st as [ps ld er sel ti bo pu me pr su]. simpl in Hs. subst sel.
    destruct (negb (Page.response_ok saved)); [reflexivity|].
    by destruct (Page.Admin.loaded_posts listed). }
  destruct (decide (trim (Page.Admin.title st) = [])) as [Ht|Ht].
  - rewrite Ht. reflexivity.
  - destruct (length (trim (Page.Admin.title st)) =? 0)%nat eqn:El;
      [by apply length_eqb_nil in El|].
    destruct (Posts.isUuid (Page.Admin.profileId st)); [|reflexivity].
    cbn [negb Posts.valid Posts.data fst].
    assert (∀ t c p,
              Posts.payload_object
                {| Posts.title := t; Posts.content := Some c;
                   Posts.profile_id := p |}
              = {[ js "title" := JStr t; js "content" := JStr c;
                   js "profile_id" := JStr p ]}) as -> by reflexivity.
    cbv beta iota zeta. fold q.
    destruct (Next.error (backend w q)); [reflexivity|].
    unfold Page.Admin.loaded_posts.
    destruct (Next.error (backend w' SelectPosts)); [by destruct st|].
    simpl. rewrite lookup_singleton_eq. simpl.
    destruct st. by destruct (Next.data (backend w' SelectPosts)).
Qed.

(** The row is stored and the reload fails: the form is emptied and
    shows that the posts could not be loaded. *)
Lemma onSubmit_create_witness :
  Page.Admin.onSubmit (run Example.form_request Posts.POST).1
                      (run Example.failing_world Posts.GET).1 Example.form
  = {| Page.Admin.posts := JArr [JStr (js "old")];
       Page.Admin.loading := false;
       Page.Admin.error := Some (Page.Text (js "Unable to load posts."));
       Page.Admin.selectedPostId := None;
       Page.Admin.title := [];
       Page.Admin.body := [];
       Page.Admin.published := false;
       Page.Admin.mediaItems := [];
       Page.Admin.profileId := Page.defaultProfileId;
       Page.Admin.submitting := false |}.
Proof.
  rewrite (onSubmit_create Example.form Example.form_request
             Example.failing_world eq_refl eq_refl).
  vm_compute. reflexivity.
Defined.
